(** * remove_cache_blocks.py: the pattern engine and the batch runner

    A shallow embedding of [scripts/remove_cache_blocks.py].

    - Text is a Python [str]: a sequence of Unicode code points.
    - The five compiled patterns are written as regex syntax trees and
      run by a backtracking matcher with the priorities of Python's [re]
      (greedy repetition, left alternative first, atomic lookahead).
    - [pattern.sub('', content)] is [re_sub]: leftmost non-overlapping
      matches are deleted in one left-to-right pass.
    - [main] runs in a small state-and-exception monad over a file store. *)

From Stdlib Require Import NArith ZArith Lia Ascii String.
From stdpp Require Import base list strings gmap.

Local Open Scope N_scope.

(** ** Text *)

Definition char := N.
Definition text := list char.

(** The code points of a literal of the script (all of them ASCII). *)
Definition text_of (s : string) : text :=
  map N_of_ascii (list_ascii_of_string s).
Arguments text_of : simpl never.

Definition nl : char := 10.
Definition is_nl (c : char) : bool := c =? nl.

(** [\s] on a [str] pattern: the code points for which [str.isspace] holds. *)
Definition is_space (c : char) : bool :=
  ((9 <=? c) && (c <=? 13)) || ((28 <=? c) && (c <=? 32))
  || (c =? 133) || (c =? 160) || (c =? 5760)
  || ((8192 <=? c) && (c <=? 8202))
  || (c =? 8232) || (c =? 8233) || (c =? 8239) || (c =? 8287) || (c =? 12288).

(** [\d] on a [str] pattern: the Unicode decimal digits (category Nd, as
    of Unicode 14).  Each entry is the zero of a run of ten digits; the
    mathematical digits U+1D7CE..U+1D7FF form one run of fifty.  The proofs
    use of this table only that ';' is not a digit. *)
Definition decimal_zeros : list N :=
  [48; 1632; 1776; 1984; 2406; 2534; 2662; 2790; 2918; 3046; 3174; 3302;
   3430; 3558; 3664; 3792; 3872; 4160; 4240; 6112; 6160; 6470; 6608; 6784;
   6800; 6992; 7088; 7232; 7248; 42528; 43216; 43264; 43472; 43504; 43600;
   44016; 65296; 66720; 68912; 69734; 69872; 69942; 70096; 70384; 70736;
   70864; 71248; 71360; 71472; 71904; 72016; 72784; 73040; 73120; 92768;
   92864; 93008; 123200; 123632; 125264; 130032].

Definition is_digit (c : char) : bool :=
  existsb (fun z => (z <=? c) && (c <? z + 10)) decimal_zeros
  || ((120782 <=? c) && (c <=? 120831)).

(** ** Regular expressions

    The syntax the five patterns use.  Every repetition in them is of one
    character class, so [Rep] and [Rep1] take a class. *)

Inductive cclass :=
| Space                      (* \s *)
| Digit                      (* \d *)
| NoneOf (excluded : text).  (* [^...] *)

Definition in_class (cl : cclass) (c : char) : bool :=
  match cl with
  | Space => is_space c
  | Digit => is_digit c
  | NoneOf ex => negb (existsb (N.eqb c) ex)
  end.

Inductive regex :=
| Bol                        (* ^ under re.MULTILINE *)
| Lit (l : text)             (* literal characters *)
| Rep (cl : cclass)          (* cl*  greedy *)
| Rep1 (cl : cclass)         (* cl+  greedy *)
| Seq (r1 r2 : regex)
| Alt (r1 r2 : regex)        (* r1|r2 *)
| Ahead (r : regex).         (* (?=r) *)

Infix "⋅" := Seq (at level 41, right associativity).

(** A cursor in the subject is the flag "at the start of a line" and the
    text still to read.  [after b l] is the flag once [l] has been read. *)
Definition after (b : bool) (l : text) : bool :=
  match last l with
  | Some c => is_nl c
  | None => b
  end.

Fixpoint strip_prefix (l s : text) : option text :=
  match l, s with
  | [], _ => Some s
  | x :: l', y :: s' => if x =? y then strip_prefix l' s' else None
  | _ :: _, [] => None
  end.

Definition cont (A : Type) := bool -> text -> option A.

(** Greedy repetition of one character class: take a character if it is in
    the class and go on; when the rest fails, give the character back. *)
Fixpoint rep {A} (cl : cclass) (k : cont A) (b : bool) (s : text) : option A :=
  match s with
  | c :: s' =>
      if in_class cl c then
        match rep cl k (is_nl c) s' with
        | Some a => Some a
        | None => k b s
        end
      else k b s
  | [] => k b s
  end.

(** The backtracking matcher, in continuation-passing style. *)
Fixpoint rmatch {A} (r : regex) (k : cont A) (b : bool) (s : text) : option A :=
  match r with
  | Bol => if b then k b s else None
  | Lit l =>
      match strip_prefix l s with
      | Some s' => k (after b l) s'
      | None => None
      end
  | Rep cl => rep cl k b s
  | Rep1 cl =>
      match s with
      | c :: s' => if in_class cl c then rep cl k (is_nl c) s' else None
      | [] => None
      end
  | Seq r1 r2 => rmatch r1 (rmatch r2 k) b s
  | Alt r1 r2 =>
      match rmatch r1 k b s with
      | Some a => Some a
      | None => rmatch r2 k b s
      end
  | Ahead r' =>
      match rmatch r' (fun _ _ => Some tt) b s with
      | Some _ => k b s
      | None => None
      end
  end.

(** [pattern.match] at a cursor: the cursor after the match. *)
Definition match_at (r : regex) (b : bool) (s : text) : option (bool * text) :=
  rmatch r (fun b' s' => Some (b', s')) b s.

(** [pattern.sub('', content)].  The subject is scanned from the left; at a
    position where the pattern matches, the matched characters are dropped
    ([skip] counts those still to drop) and scanning resumes at the end of
    the match; elsewhere the character is copied.  An empty match is
    replaced by the empty string, which copies the character as well. *)
Fixpoint sub_go (r : regex) (skip : nat) (b : bool) (s : text) : text :=
  match s with
  | [] => []
  | c :: s' =>
      match skip with
      | S n => sub_go r n (is_nl c) s'
      | O =>
          match match_at r b s with
          | Some (_, rest) =>
              match (length s - length rest)%nat with
              | S n => sub_go r n (is_nl c) s'
              | O => c :: sub_go r 0 (is_nl c) s'
              end
          | None => c :: sub_go r 0 (is_nl c) s'
          end
      end
  end.

Definition re_sub (r : regex) (content : text) : text :=
  sub_go r 0 true content.

(** ** The patterns of [remove_cache_blocks] *)

(** Pattern 1:
    r'^\s*const cached = getCached\([^)]+\);\s*\n\s*if \(cached\) return cached;\s*\n' *)
Definition pattern1 : regex :=
  Bol ⋅ Rep Space ⋅ Lit (text_of "const cached = getCached(")
      ⋅ Rep1 (NoneOf (text_of ")")) ⋅ Lit (text_of ");")
      ⋅ Rep Space ⋅ Lit [nl]
      ⋅ Rep Space ⋅ Lit (text_of "if (cached) return cached;")
      ⋅ Rep Space ⋅ Lit [nl].

(** Pattern 2:
    r'^\s*const cached = getCached\([^)]+\);\s*\n\s*if \(cached\) \{\s*\n\s*return cached;\s*\n\s*\}\s*\n' *)
Definition pattern2 : regex :=
  Bol ⋅ Rep Space ⋅ Lit (text_of "const cached = getCached(")
      ⋅ Rep1 (NoneOf (text_of ")")) ⋅ Lit (text_of ");")
      ⋅ Rep Space ⋅ Lit [nl]
      ⋅ Rep Space ⋅ Lit (text_of "if (cached) {")
      ⋅ Rep Space ⋅ Lit [nl]
      ⋅ Rep Space ⋅ Lit (text_of "return cached;")
      ⋅ Rep Space ⋅ Lit [nl]
      ⋅ Rep Space ⋅ Lit (text_of "}")
      ⋅ Rep Space ⋅ Lit [nl].

(** Pattern 3: r'^\s*setCache\([^;]+\);\s*\n' *)
Definition pattern3 : regex :=
  Bol ⋅ Rep Space ⋅ Lit (text_of "setCache(")
      ⋅ Rep1 (NoneOf (text_of ";")) ⋅ Lit (text_of ");")
      ⋅ Rep Space ⋅ Lit [nl].

(** Pattern 4: r'^\s*setCache\([^;]+,\s*\d+\);\s*\n' *)
Definition pattern4 : regex :=
  Bol ⋅ Rep Space ⋅ Lit (text_of "setCache(")
      ⋅ Rep1 (NoneOf (text_of ";")) ⋅ Lit (text_of ",")
      ⋅ Rep Space ⋅ Rep1 Digit ⋅ Lit (text_of ");")
      ⋅ Rep Space ⋅ Lit [nl].

(** r'^\s*const cacheKey = [^;]+;\s*\n(?=\s*(log\.|try))'; the group
    captures nothing that the empty replacement uses. *)
Definition pattern_unused_key : regex :=
  Bol ⋅ Rep Space ⋅ Lit (text_of "const cacheKey = ")
      ⋅ Rep1 (NoneOf (text_of ";")) ⋅ Lit (text_of ";")
      ⋅ Rep Space ⋅ Lit [nl]
      ⋅ Ahead (Rep Space ⋅ Alt (Lit (text_of "log.")) (Lit (text_of "try"))).

Definition remove_cache_blocks (content : text) : text :=
  let content := re_sub pattern1 content in
  let content := re_sub pattern2 content in
  let content := re_sub pattern3 content in
  let content := re_sub pattern4 content in
  let content := re_sub pattern_unused_key content in
  content.

(** ** What a match is

    [Matches r b l s]: at a cursor with line-start flag [b], the pattern [r]
    can read exactly [l] when the text that follows [l] is [s].  This is
    the set of all ways to match, without priorities; [rmatch] explores it
    in Python's order. *)

Definition all_in (cl : cclass) (w : text) : Prop :=
  Forall (λ c, in_class cl c = true) w.

Inductive Matches : regex → bool → text → text → Prop :=
| MBol s : Matches Bol true [] s
| MLit l b s : Matches (Lit l) b l s
| MRep cl b w s : all_in cl w → Matches (Rep cl) b w s
| MRep1 cl b w s : w ≠ [] → all_in cl w → Matches (Rep1 cl) b w s
| MSeq r1 r2 b l1 l2 s :
    Matches r1 b l1 (l2 ++ s) → Matches r2 (after b l1) l2 s →
    Matches (r1 ⋅ r2) b (l1 ++ l2) s
| MAltL r1 r2 b l s : Matches r1 b l s → Matches (Alt r1 r2) b l s
| MAltR r1 r2 b l s : Matches r2 b l s → Matches (Alt r1 r2) b l s
| MAhead r b l s : Matches r b l s → Matches (Ahead r) b [] (l ++ s).

(** No match starts at the cursor [(b, s)]. *)
Definition no_match (r : regex) (b : bool) (s : text) : Prop :=
  ∀ l s', s = l ++ s' → ¬ Matches r b l s'.

(** The pattern never matches the empty string. *)
Definition consuming (r : regex) : Prop := ∀ b s, ¬ Matches r b [] s.

(** Every match starts at the start of a line and ends after a line break. *)
Definition line_rule (r : regex) : Prop :=
  ∀ b l s, Matches r b l s → b = true ∧ last l = Some nl.

(** One pass of [sub_go] seen as a derivation: characters are copied where
    no match starts, and a matched segment is dropped. *)
Inductive Scan (r : regex) : bool → text → text → Prop :=
| scan_end b : Scan r b [] []
| scan_copy b c s t :
    no_match r b (c :: s) → Scan r (is_nl c) s t → Scan r b (c :: s) (c :: t)
| scan_drop b l s t :
    l ≠ [] → Matches r b l s → Scan r (after b l) s t → Scan r b (l ++ s) t.

(** No match starts anywhere in [s]. *)
Inductive Clean (r : regex) : bool → text → Prop :=
| clean_end b : Clean r b []
| clean_cons b c s :
    no_match r b (c :: s) → Clean r (is_nl c) s → Clean r b (c :: s).

(** Some match of [r] ends inside the block [blk]: behind its first
    character and before its last. *)
Definition ends_inside (r : regex) (blk : text) : Prop :=
  ∃ b l s a k k', Matches r b l s ∧ l = a ++ k ∧ blk = k ++ k'
                  ∧ k ≠ [] ∧ k' ≠ [].

(** Some match of [r] starts at a line start inside the block [blk]. *)
Definition starts_inside (r : regex) (blk : text) : Prop :=
  ∃ k1 k2 l s post, blk = k1 ++ k2 ∧ last k1 = Some nl ∧ k2 ≠ []
                    ∧ Matches r true l s ∧ k2 ++ post = l ++ s.

(** ** Lines *)

(** The lines of a text, each with its line break; the last one has none
    when the text does not end with a line break. *)
Fixpoint lines (s : text) : list text :=
  match s with
  | [] => []
  | c :: s' =>
      if is_nl c then [c] :: lines s'
      else match lines s' with
           | [] => [[c]]
           | l :: ls => (c :: l) :: ls
           end
  end.

(** [LineDel b s t]: [t] is [s] with some whole lines deleted, a deletion
    starting only where a line starts and ending after a line break. *)
Inductive LineDel : bool → text → text → Prop :=
| ld_end b : LineDel b [] []
| ld_copy b c s t : LineDel (is_nl c) s t → LineDel b (c :: s) (c :: t)
| ld_drop l s t :
    last l = Some nl → LineDel true s t → LineDel true (l ++ s) t.

(** In the text [s] the block [blk] still stands at a line start, with
    lines of [base] around it, or [s] has lines of [base] only. *)
Definition kept_or_gone (blk base s : text) : Prop :=
  (∃ u p, s = u ++ blk ++ p ∧ after true u = true
          ∧ lines (u ++ p) `sublist_of` lines base)
  ∨ lines s `sublist_of` lines base.

Definition blank (w : text) : Prop :=
  Forall (λ c, is_space c = true ∧ c ≠ nl) w.

Fixpoint iter_engine (n : nat) (content : text) : text :=
  match n with
  | O => content
  | S n' => iter_engine n' (remove_cache_blocks content)
  end.

(** The engine without its fourth substitution. *)
Definition remove_cache_blocks_without_rule4 (content : text) : text :=
  let content := re_sub pattern1 content in
  let content := re_sub pattern2 content in
  let content := re_sub pattern3 content in
  let content := re_sub pattern_unused_key content in
  content.

(** ** [str.count] *)

Definition starts_with (needle s : text) : bool :=
  match strip_prefix needle s with
  | Some _ => true
  | None => false
  end.

(** Non-overlapping occurrences, counted from the left: after an occurrence
    the scan resumes behind it ([skip] characters are passed over). *)
Fixpoint count_go (needle : text) (skip : nat) (s : text) : nat :=
  match s with
  | [] => match needle with [] => 1 | _ => 0 end
  | _ :: s' =>
      match skip with
      | S n => count_go needle n s'
      | O =>
          if starts_with needle s
          then S (count_go needle (length needle - 1) s')
          else count_go needle 0 s'
      end
  end.

Definition count (s needle : text) : Z := Z.of_nat (count_go needle 0 s).

(** Occurrences by start position. *)
Fixpoint occ (needle s : text) : nat :=
  match s with
  | [] => 0
  | _ :: s' => (if starts_with needle s then 1 else 0) + occ needle s'
  end.

Definition getCached : text := text_of "getCached".
Definition setCache : text := text_of "setCache".

Definition markers (s : text) : Z := (count s getCached + count s setCache)%Z.

(** ** The shapes the statements speak about *)

(** A declaration of the key on one line, without its line break. *)
Definition key_decl_body (w x w' : text) : text :=
  w ++ text_of "const cacheKey = " ++ x ++ text_of ";" ++ w'.

Fixpoint skip_space (s : text) : text :=
  match s with
  | c :: s' => if is_space c then skip_space s' else s
  | [] => []
  end.

(** What the lookahead of the rule tests: behind any white space, line
    breaks included, the text goes on with "log." or with "try". *)
Definition log_or_try_follows (next : text) : bool :=
  starts_with (text_of "log.") (skip_space next)
  || starts_with (text_of "try") (skip_space next).

(** A needle that cannot overlap itself. *)
Definition border_free (needle : text) : Prop :=
  ∀ s j, (0 < j < length needle)%nat →
    starts_with needle s = true → starts_with needle (drop j s) = false.

(** The four lines of a lookup with its guard in block form, each without
    its line break, and the block they make. *)
Definition lookup_body (w1 x w2 : text) : text :=
  w1 ++ text_of "const cached = getCached(" ++ x ++ text_of ");" ++ w2.

Definition guard_open_body (w3 w4 : text) : text :=
  w3 ++ text_of "if (cached) {" ++ w4.

Definition guard_return_body (w5 w6 : text) : text :=
  w5 ++ text_of "return cached;" ++ w6.

Definition guard_close_body (w7 w8 : text) : text :=
  w7 ++ text_of "}" ++ w8.

Definition block_form (w1 x w2 w3 w4 w5 w6 w7 w8 : text) : text :=
  (lookup_body w1 x w2 ++ [nl]) ++ (guard_open_body w3 w4 ++ [nl])
  ++ (guard_return_body w5 w6 ++ [nl]) ++ (guard_close_body w7 w8 ++ [nl]).

(** A cache write with the white space [ws] in front of it, the argument
    text [x] and the white space [w'] behind it, up to its line break. *)
Definition write_call (ws x w' : text) : text :=
  ws ++ text_of "setCache(" ++ x ++ text_of ");" ++ w' ++ [nl].

(** The texts that rule 3 reads as one cache write ending with [w'] and a
    line break: any white space in front, line breaks included, and a
    non-empty argument text without ';', line breaks included. *)
Definition is_write_call (w' cur : text) : Prop :=
  ∃ ws x, cur = write_call ws x w' ∧ all_in Space ws ∧ x ≠ []
          ∧ all_in (NoneOf (text_of ";")) x.

(** ** The batch runner *)

Definition PROVIDERS_DIR : string :=
  "/NAS/Data/Mes Images Docker/toys_api/lib/providers".

Definition PROVIDERS : list string :=
  ["lego.js"; "igdb.js"; "jvc.js"; "tmdb.js"; "rebrickable.js";
   "bgg-scraper.js"; "googlebooks.js"; "openlibrary.js";
   "transformerland.js"; "coleka.js"; "mangadex.js";
   "luluberlu.js"; "jikan.js"]%string.

(** What [print] writes, without the decoration. *)
Inductive notice :=
| NotFound (filename : string)
| Removed (filename : string) (removed : Z)
| NoChange (filename : string)
| Total (total_changes : Z) (nfiles : nat).

Inductive event :=
| EExists (path : string)
| ERead (path : string)
| EWrite (path : string) (content : text)
| EPrint (n : notice).

(** The store maps the path of every existing file to its text, decoded
    from UTF-8; files that exist and cannot be read, decoded or written are
    not in the model.  [events] is the log of what the run did, oldest
    first. *)
Record world := World { files : gmap string text; events : list event }.

Inductive exn := FileNotFoundError (path : string).

Inductive outcome (A : Type) :=
| Returned (a : A) (w : world)
| Raised (e : exn) (w : world).
Arguments Returned {A} a w.
Arguments Raised {A} e w.

Definition IO (A : Type) := world → outcome A.

Definition ret {A} (a : A) : IO A := λ w, Returned a w.

Definition bind {A B} (m : IO A) (f : A → IO B) : IO B :=
  λ w, match m w with
       | Returned a w' => f a w'
       | Raised e w' => Raised e w'
       end.

Notation "x <- m ;; k" := (bind m (λ x, k))
  (at level 100, m at next level, right associativity).
Notation "m ;; k" := (bind m (λ _, k))
  (at level 100, right associativity).

Definition log (e : event) (w : world) : world :=
  World (files w) (events w ++ [e]).

Definition path_exists (path : string) : IO bool :=
  λ w, Returned (bool_decide (is_Some (files w !! path))) (log (EExists path) w).

Definition read_text (path : string) : IO text :=
  λ w, match files w !! path with
       | Some content => Returned content (log (ERead path) w)
       | None => Raised (FileNotFoundError path) w
       end.

Definition write_text (path : string) (content : text) : IO unit :=
  λ w, Returned tt (World (<[path := content]> (files w))
                          (events w ++ [EWrite path content])).

Definition print (n : notice) : IO unit :=
  λ w, Returned tt (log (EPrint n) w).

(** [os.path.join] with two components. *)
Definition path_join (dir name : string) : string :=
  match name with
  | String "/" _ => name
  | _ =>
      match dir with
      | EmptyString => name
      | _ => if String.eqb (substring (String.length dir - 1) 1 dir) "/"
             then dir +:+ name else dir +:+ "/" +:+ name
      end
  end%string.

Definition removed_count (original modified : text) : Z :=
  let changes := markers original in
  let remaining := markers modified in
  (changes - remaining)%Z.

(** The body of the loop of [main] for one file name. *)
Definition process (dir filename : string) (total_changes : Z) : IO Z :=
  let filepath := path_join dir filename in
  found <- path_exists filepath ;;
  if negb found then
    print (NotFound filename) ;;
    ret total_changes
  else
    original <- read_text filepath ;;
    let modified := remove_cache_blocks original in
    if negb (bool_decide (original = modified)) then
      write_text filepath modified ;;
      let removed := removed_count original modified in
      print (Removed filename removed) ;;
      ret (total_changes + removed)%Z
    else
      print (NoChange filename) ;;
      ret total_changes.

Fixpoint for_each (dir : string) (providers : list string) (total_changes : Z)
  : IO Z :=
  match providers with
  | [] => ret total_changes
  | filename :: rest =>
      total_changes <- process dir filename total_changes ;;
      for_each dir rest total_changes
  end.

Definition run (dir : string) (providers : list string) : IO Z :=
  total_changes <- for_each dir providers 0%Z ;;
  print (Total total_changes (length providers)) ;;
  ret total_changes.

Definition main : IO Z := run PROVIDERS_DIR PROVIDERS.

(** The world after the loop body, in its three cases. *)

Definition skipped (dir filename : string) (w : world) : world :=
  World (files w)
        (events w ++ [EExists (path_join dir filename); EPrint (NotFound filename)]).

Definition kept (dir filename : string) (w : world) : world :=
  World (files w)
        (events w ++ [EExists (path_join dir filename);
                      ERead (path_join dir filename);
                      EPrint (NoChange filename)]).

Definition rewritten (dir filename : string) (original : text) (w : world)
  : world :=
  let modified := remove_cache_blocks original in
  World (<[path_join dir filename := modified]> (files w))
        (events w ++ [EExists (path_join dir filename);
                      ERead (path_join dir filename);
                      EWrite (path_join dir filename) modified;
                      EPrint (Removed filename (removed_count original modified))]).

(** What one file contributes to the total, from its text before the run
    ([None]: no such file). *)
Definition file_count (o : option text) : Z :=
  match o with
  | Some original =>
      let modified := remove_cache_blocks original in
      if bool_decide (original = modified) then 0%Z
      else (markers original - markers modified)%Z
  | None => 0%Z
  end.

Fixpoint sum_counts (dir : string) (providers : list string)
    (fs : gmap string text) : Z :=
  match providers with
  | [] => 0%Z
  | filename :: rest =>
      (file_count (fs !! path_join dir filename) + sum_counts dir rest fs)%Z
  end.

(** The notices of a log, in the order they were printed. *)
Definition printed (evs : list event) : list notice :=
  omap (λ e, match e with EPrint n => Some n | _ => None end) evs.

(** The file a notice is about; the summary is about none. *)
Definition notice_file (n : notice) : option string :=
  match n with
  | NotFound filename | Removed filename _ | NoChange filename => Some filename
  | Total _ _ => None
  end.

(** ** Example inputs *)

(** A lookup with its guard in block form, and the code behind it. *)
Definition block_guard : text :=
  text_of "  const cached = getCached(cacheKey);" ++ [nl] ++
  text_of "  if (cached) {" ++ [nl] ++
  text_of "    return cached;" ++ [nl] ++
  text_of "  }" ++ [nl] ++
  text_of "  return fetch(id);" ++ [nl].

(** A lookup line, a cache write, and the guard of the lookup. *)
Definition split_guard : text :=
  text_of "const cached = getCached(cacheKey);" ++ [nl] ++
  text_of "setCache(cacheKey, result);" ++ [nl] ++
  text_of "if (cached) return cached;" ++ [nl].

(** A text ending with a two-argument cache write and no line break. *)
Definition unterminated_write : text :=
  text_of "const result = compute();" ++ [nl] ++
  text_of "setCache(cacheKey, result);".

(** A declaration of the key, an empty line, and a [try] block. *)
Definition key_before_blank_line : text :=
  text_of "const cacheKey = `lego:${id}`;" ++ [nl] ++
  [nl] ++
  text_of "try {" ++ [nl].


Definition decl_with_semicolon : text :=
  text_of "const cacheKey = `lego;${id}`;" ++ [nl] ++
  text_of "try {" ++ [nl].

(** A cache write with an expiry, as rule 4 describes it. *)
Definition ttl_write : text :=
  text_of "  setCache(cacheKey, result, 3600);" ++ [nl].

Definition demo_dir : string := "/srv/providers".

(** A store with one file that the engine modifies and one that it does
    not; "gone.js" does not exist. *)
Definition demo_files : gmap string text :=
  <["/srv/providers/a.js"%string := split_guard]>
    (<["/srv/providers/b.js"%string := text_of "let x = 1;"]> ∅).

Definition demo_world : world := World demo_files [].

(** * Properties *)

(** ** Cursors and literals *)

Lemma after_cons b c l : after b (c :: l) = after (is_nl c) l.
Proof.
  unfold after. destruct l as [|d l]; [reflexivity|].
  rewrite last_cons_cons. destruct (last (d :: l)) eqn:E; [done|].
  by apply last_None in E.
Qed.

Lemma after_app b l1 l2 : after (after b l1) l2 = after b (l1 ++ l2).
Proof.
  unfold after. rewrite last_app.
  destruct (last l2); [reflexivity|]. by destruct (last l1).
Qed.

Lemma after_last b l c : last l = Some c → after b l = is_nl c.
Proof. unfold after. by intros ->. Qed.

Lemma strip_prefix_app l s : strip_prefix l (l ++ s) = Some s.
Proof. induction l as [|x l IH]; simpl; [done|]. by rewrite N.eqb_refl. Qed.

Lemma strip_prefix_Some l s s' : strip_prefix l s = Some s' → s = l ++ s'.
Proof.
  revert s. induction l as [|x l IH]; intros [|y s]; simpl; try congruence.
  destruct (N.eqb_spec x y) as [->|]; [|done]. intros H. f_equal. by apply IH.
Qed.

Lemma starts_with_true needle s :
  starts_with needle s = true ↔ ∃ s', s = needle ++ s'.
Proof.
  unfold starts_with. split.
  - destruct (strip_prefix needle s) eqn:E; [|done].
    intros _. eexists. by apply strip_prefix_Some.
  - intros [s' ->]. by rewrite strip_prefix_app.
Qed.

(** ** The matcher finds exactly the matches *)

Lemma rep_sound {A} cl (k : cont A) b s a :
  rep cl k b s = Some a →
  ∃ w s', s = w ++ s' ∧ all_in cl w ∧ k (after b w) s' = Some a.
Proof.
  revert b. induction s as [|c s IH]; intros b; simpl.
  - intros H. exists [], []. by repeat split; [constructor|].
  - destruct (in_class cl c) eqn:Hc.
    + destruct (rep cl k (is_nl c) s) as [a'|] eqn:Hr.
      * intros [= ->]. destruct (IH _ Hr) as (w & s' & -> & Hw & Hk).
        exists (c :: w), s'. rewrite after_cons.
        repeat split; [by constructor | done].
      * intros H. exists [], (c :: s). by repeat split; [constructor|].
    + intros H. exists [], (c :: s). by repeat split; [constructor|].
Qed.

Lemma rep_here {A} cl (k : cont A) b s :
  is_Some (k b s) → is_Some (rep cl k b s).
Proof.
  destruct s as [|c s]; simpl; [done|]. intros H.
  destruct (in_class cl c); [|done]. by destruct (rep cl k (is_nl c) s).
Qed.

Lemma rep_complete {A} cl (k : cont A) b w s :
  all_in cl w → is_Some (k (after b w) s) → is_Some (rep cl k b (w ++ s)).
Proof.
  intros Hw. revert b. induction Hw as [|c w Hc Hw IH]; intros b Hk.
  - by apply rep_here.
  - simpl. rewrite Hc. rewrite after_cons in Hk.
    destruct (IH _ Hk) as [a ->]. done.
Qed.

Lemma rmatch_sound {A} r (k : cont A) b s a :
  rmatch r k b s = Some a →
  ∃ l s', s = l ++ s' ∧ Matches r b l s' ∧ k (after b l) s' = Some a.
Proof.
  revert A k b s a.
  induction r as [|l|cl|cl|r1 IH1 r2 IH2|r1 IH1 r2 IH2|r IH];
    intros A k b s a; simpl.
  - destruct b; [|done]. intros H. exists [], s. by repeat split; [constructor|].
  - destruct (strip_prefix l s) as [s'|] eqn:E; [|done].
    intros H. exists l, s'. apply strip_prefix_Some in E.
    split; [done|]. split; [constructor | done].
  - intros H. destruct (rep_sound _ _ _ _ _ H) as (w & s' & -> & Hw & Hk).
    exists w, s'. by repeat split; [constructor|].
  - destruct s as [|c s]; [done|]. destruct (in_class cl c) eqn:Hc; [|done].
    intros H. destruct (rep_sound _ _ _ _ _ H) as (w & s' & -> & Hw & Hk).
    exists (c :: w), s'. rewrite after_cons.
    repeat split; [|done]. constructor; [done | by constructor].
  - intros H.
    destruct (IH1 _ _ _ _ _ H) as (l1 & s1 & -> & M1 & H1).
    destruct (IH2 _ _ _ _ _ H1) as (l2 & s2 & -> & M2 & H2).
    exists (l1 ++ l2), s2. rewrite <- after_app, app_assoc.
    repeat split; [|done]. by constructor.
  - destruct (rmatch r1 k b s) as [a'|] eqn:E.
    + intros [= ->]. destruct (IH1 _ _ _ _ _ E) as (l & s' & -> & M & Hk).
      exists l, s'. repeat split; [|done]. by apply MAltL.
    + intros H. destruct (IH2 _ _ _ _ _ H) as (l & s' & -> & M & Hk).
      exists l, s'. repeat split; [|done]. by apply MAltR.
  - destruct (rmatch r (λ _ _, Some ()) b s) as [[]|] eqn:E; [|done].
    intros H. destruct (IH _ _ _ _ _ E) as (l & s' & -> & M & _).
    exists [], (l ++ s'). repeat split; [|done]. by constructor.
Qed.

Lemma rmatch_complete r b l s :
  Matches r b l s →
  ∀ A (k : cont A), is_Some (k (after b l) s) → is_Some (rmatch r k b (l ++ s)).
Proof.
  induction 1 as [s|l b s|cl b w s Hw|cl b w s Hne Hw
                  |r1 r2 b l1 l2 s M1 IH1 M2 IH2
                  |r1 r2 b l s M IH|r1 r2 b l s M IH|r b l s M IH];
    intros A k Hk; simpl.
  - done.
  - by rewrite strip_prefix_app.
  - by apply rep_complete.
  - destruct Hw as [|c w Hc Hw]; [done|]. simpl. rewrite Hc.
    rewrite after_cons in Hk. by apply rep_complete.
  - rewrite <- app_assoc. apply IH1, IH2. by rewrite after_app.
  - destruct (IH _ _ Hk) as [a ->]. done.
  - destruct (rmatch r1 k b (l ++ s)); [done|]. by apply IH.
  - destruct (IH unit (λ _ _, Some ())) as [[] ->]; done.
Qed.

Lemma match_at_sound r b s b' s' :
  match_at r b s = Some (b', s') →
  ∃ l, s = l ++ s' ∧ Matches r b l s' ∧ b' = after b l.
Proof.
  intros H. destruct (rmatch_sound _ _ _ _ _ H) as (l & s1 & -> & M & [= <- <-]).
  by exists l.
Qed.

Lemma match_at_None r b s : match_at r b s = None → no_match r b s.
Proof.
  intros H l s' -> M.
  destruct (rmatch_complete _ _ _ _ M _ (λ b' s', Some (b', s'))) as [x Hx]; [done|].
  unfold match_at in H. congruence.
Qed.

(** ** One substitution pass *)

Lemma sub_go_skip r l : ∀ b s,
  sub_go r (length l) b (l ++ s) = sub_go r 0 (after b l) s.
Proof.
  induction l as [|c l IH]; intros b s; [done|].
  simpl. by rewrite IH, after_cons.
Qed.

Lemma sub_go_copy r b c s :
  match_at r b (c :: s) = None →
  sub_go r 0 b (c :: s) = c :: sub_go r 0 (is_nl c) s.
Proof. simpl. by intros ->. Qed.

Lemma sub_go_drop r b l s b' :
  l ≠ [] → match_at r b (l ++ s) = Some (b', s) →
  sub_go r 0 b (l ++ s) = sub_go r 0 (after b l) s.
Proof.
  destruct l as [|c l]; [done|]. intros _ H.
  change ((c :: l) ++ s) with (c :: (l ++ s)) in *.
  cbn [sub_go]. rewrite H.
  replace (length (c :: l ++ s) - length s)%nat with (S (length l))
    by (simpl; rewrite length_app; lia).
  by rewrite sub_go_skip, after_cons.
Qed.

Lemma sub_go_scan r : consuming r → ∀ s b, Scan r b s (sub_go r 0 b s).
Proof.
  intros Hr s. remember (length s) as n eqn:Hn. revert s Hn.
  induction n as [n IH] using lt_wf_ind. intros [|c s] Hn b.
  { constructor. }
  destruct (match_at r b (c :: s)) as [[b' rest]|] eqn:E.
  - destruct (match_at_sound _ _ _ _ _ E) as (l & Hl & M & ->).
    assert (l ≠ []) as Hne by (intros ->; by apply Hr in M).
    rewrite Hl in E |- *. rewrite (sub_go_drop _ _ _ _ _ Hne E).
    apply scan_drop; [done..|].
    eapply IH; [|reflexivity]. subst n.
    apply (f_equal length) in Hl. rewrite length_app in Hl.
    destruct l; [done|]. simpl in *. lia.
  - rewrite (sub_go_copy _ _ _ _ E). apply scan_copy.
    + by apply match_at_None.
    + eapply IH; [|reflexivity]. subst n. simpl. lia.
Qed.

Lemma re_sub_scan r content :
  consuming r → Scan r true content (re_sub r content).
Proof. intros Hr. by apply sub_go_scan. Qed.

Lemma line_rule_consuming r : line_rule r → consuming r.
Proof. intros Hr b s M. by destruct (Hr _ _ _ M) as [_ ?]. Qed.

Lemma scan_linedel r b s t : line_rule r → Scan r b s t → LineDel b s t.
Proof.
  intros Hr. induction 1 as [b|b c s t Hno Hs IH|b l s t Hne M Hs IH].
  - constructor.
  - by constructor.
  - destruct (Hr _ _ _ M) as [-> Hl].
    rewrite (after_last _ _ _ Hl) in IH. by constructor.
Qed.

Lemma clean_scan r b s : Clean r b s → ∀ t, Scan r b s t → t = s.
Proof.
  induction 1 as [b|b c s Hno Hc IH]; intros t Hs.
  - by inversion Hs; subst; [|destruct l].
  - inversion Hs as [|? ? ? t' _ Hs'|? l s' ? Hne M _ Hl]; subst.
    + f_equal. by apply IH.
    + exfalso. by apply (Hno l s').
Qed.

(** ** Deleting whole lines *)

Lemma linedel_length b s t :
  LineDel b s t → (length t ≤ length s)%nat ∧ (length t = length s → t = s).
Proof.
  induction 1 as [b|b c s t H [IH1 IH2]|l s t Hl H [IH1 IH2]]; simpl.
  - done.
  - split; [lia|]. intros ?. f_equal. apply IH2. lia.
  - rewrite length_app. destruct l as [|c l]; [done|]. simpl. split; lia.
Qed.

Lemma lines_nil_inv s : lines s = [] → s = [].
Proof.
  destruct s as [|c s]; [done|]. simpl.
  destruct (is_nl c); [done|]. by destruct (lines s).
Qed.

Lemma lines_first p c s :
  Forall (λ c, is_nl c = false) p → is_nl c = true →
  lines (p ++ c :: s) = (p ++ [c]) :: lines s.
Proof.
  intros Hp Hc. induction Hp as [|d p Hd Hp IH]; simpl.
  - by rewrite Hc.
  - by rewrite Hd, IH.
Qed.

Lemma lines_app_nl l s :
  last l = Some nl → lines (l ++ s) = lines l ++ lines s.
Proof.
  intros [l' ->]%last_Some. induction l' as [|c l' IH]; [done|].
  simpl. destruct (is_nl c); [by rewrite IH|].
  simpl in IH. rewrite IH.
  destruct (lines (l' ++ [nl])) eqn:E; [|done].
  apply lines_nil_inv in E. by destruct l'.
Qed.

(** A partial line [p] in front does not disturb the comparison. *)
Lemma linedel_lines_from b s t :
  LineDel b s t → ∀ p, Forall (λ c, is_nl c = false) p → (b = true → p = []) →
  lines (p ++ t) `sublist_of` lines (p ++ s).
Proof.
  induction 1 as [b|b c s t H IH|l s t Hl H IH]; intros p Hp Hb.
  - done.
  - destruct (is_nl c) eqn:Hc.
    + rewrite !lines_first by done. apply sublist_skip.
      by apply (IH [] (Forall_nil_2 _)).
    + specialize (IH (p ++ [c])). rewrite <- !app_assoc in IH. apply IH.
      * apply Forall_app. split; [done|]. by constructor.
      * done.
  - rewrite (Hb eq_refl). simpl. rewrite lines_app_nl by done.
    apply sublist_inserts_l. by apply (IH [] (Forall_nil_2 _)).
Qed.

Lemma linedel_lines s t : LineDel true s t → lines t `sublist_of` lines s.
Proof. intros H. by apply (linedel_lines_from _ _ _ H [] (Forall_nil_2 _)). Qed.

(** A text without a line break has nothing to delete. *)
Lemma linedel_no_nl b s t : nl ∉ s → LineDel b s t → t = s.
Proof.
  intros Hs. induction 1 as [b|b c s t H IH|l s t Hl H IH].
  - done.
  - f_equal. apply IH. set_solver.
  - exfalso. apply Hs. apply last_Some_elem_of in Hl.
    apply elem_of_app. by left.
Qed.

(** The unterminated last line stays where it is. *)
Lemma linedel_last_line b a l t :
  nl ∉ l → LineDel b (a ++ l) t → ∃ a', t = a' ++ l ∧ LineDel b a a'.
Proof.
  intros Hl H. remember (a ++ l) as s eqn:Hs. revert a Hs.
  induction H as [b|b c s t H IH|m s t Hm H IH]; intros a Hs.
  - exists []. symmetry in Hs. apply app_eq_nil in Hs as [-> ->].
    split; [done | constructor].
  - destruct a as [|d a]; simpl in Hs.
    + exists []. split; [|constructor]. simpl. subst l.
      f_equal. eapply linedel_no_nl; [|done]. set_solver.
    + injection Hs as <- ->. destruct (IH a eq_refl) as (a' & -> & Ha).
      exists (c :: a'). split; [done|]. by constructor.
  - apply app_eq_inv in Hs as [(k & Hk1 & Hk2)|(k & Hk1 & Hk2)].
    + destruct k as [|x k].
      * simpl in Hk2. rewrite app_nil_r in Hk1. subst m.
        exists []. split.
        -- simpl. rewrite Hk2. eapply linedel_no_nl; [|done]. by rewrite <- Hk2.
        -- rewrite <- (app_nil_r a). constructor; [done | constructor].
      * exfalso. apply Hl. rewrite Hk1, last_app in Hm.
        destruct (last (x :: k)) eqn:E; [|by apply last_None in E].
        injection Hm as ->. apply last_Some_elem_of in E.
        rewrite Hk2. apply elem_of_app. by left.
    + destruct (IH k Hk2) as (a' & -> & Ha).
      exists a'. split; [done|]. rewrite Hk1. by constructor.
Qed.

Lemma linedel_false_inv s t :
  LineDel false s t →
  (s = [] ∧ t = []) ∨ ∃ c s' t', s = c :: s' ∧ t = c :: t' ∧ LineDel (is_nl c) s' t'.
Proof. inversion 1; subst; [by left|]. right. by eauto 6. Qed.

Lemma linedel_aligned b a a' :
  LineDel b a a' → a = [] ∨ last a = Some nl → a' = [] ∨ last a' = Some nl.
Proof.
  induction 1 as [b|b c s t H IH|l s t Hl H IH]; intros Ha.
  - by left.
  - right. destruct Ha as [|Ha]; [done|].
    destruct s as [|d s].
    + inversion H; subst; [done|by destruct l].
    + rewrite last_cons_cons in Ha. destruct (IH (or_intror Ha)) as [->|Ht].
      * destruct (is_nl c) eqn:Hc.
        -- apply N.eqb_eq in Hc as ->. done.
        -- apply linedel_false_inv in H as [[? _]|(? & ? & ? & _ & ? & _)]; done.
      * destruct t; [done|]. by rewrite last_cons_cons.
  - apply IH. destruct Ha as [Ha|Ha].
    + apply app_eq_nil in Ha as [_ ->]. by left.
    + rewrite last_app in Ha. destruct (last s) eqn:E; [by right|].
      left. by apply last_None.
Qed.

(** ** The five patterns delete whole lines *)

Ltac inv_matches :=
  repeat match goal with
  | H : Matches Bol _ _ _ |- _ => inversion H; subst; clear H
  | H : Matches (Lit _) _ _ _ |- _ => inversion H; subst; clear H
  | H : Matches (Rep _) _ _ _ |- _ => inversion H; subst; clear H
  | H : Matches (Rep1 _) _ _ _ |- _ => inversion H; subst; clear H
  | H : Matches (_ ⋅ _) _ _ _ |- _ => inversion H; subst; clear H
  | H : Matches (Alt _ _) _ _ _ |- _ => inversion H; subst; clear H
  | H : Matches (Ahead _) _ _ _ |- _ => inversion H; subst; clear H
  end.

Ltac line_rule_tac :=
  let M := fresh "M" in
  intros ? ? ? M;
  unfold pattern1, pattern2, pattern3, pattern4, pattern_unused_key in M;
  inv_matches;
  (split; [reflexivity|]; rewrite ?app_nil_r, !app_assoc; apply last_snoc).

Lemma pattern1_line_rule : line_rule pattern1.
Proof. line_rule_tac. Qed.

Lemma pattern2_line_rule : line_rule pattern2.
Proof. line_rule_tac. Qed.

Lemma pattern3_line_rule : line_rule pattern3.
Proof. line_rule_tac. Qed.

Lemma pattern4_line_rule : line_rule pattern4.
Proof. line_rule_tac. Qed.

Lemma pattern_unused_key_line_rule : line_rule pattern_unused_key.
Proof. line_rule_tac. Qed.

Create HintDb rules.
#[local] Hint Resolve pattern1_line_rule pattern2_line_rule pattern3_line_rule
  pattern4_line_rule pattern_unused_key_line_rule line_rule_consuming : rules.

Lemma re_sub_linedel r content :
  line_rule r → LineDel true content (re_sub r content).
Proof.
  intros Hr. eapply scan_linedel; [done|].
  apply re_sub_scan. by apply line_rule_consuming.
Qed.

(** A property that every whole-line deletion preserves holds across the
    five passes of the engine. *)
Lemma engine_chain (R : text → text → Prop) :
  (∀ s t, LineDel true s t → R s t) →
  (∀ s t u, R s t → R t u → R s u) →
  ∀ content, R content (remove_cache_blocks content).
Proof.
  intros Hstep Htrans content. unfold remove_cache_blocks.
  do 4 (eapply Htrans; [|apply Hstep, re_sub_linedel; auto with rules]).
  apply Hstep, re_sub_linedel; auto with rules.
Qed.

(** ** Counting the marker names *)

Lemma occ_app_ge needle l s : (occ needle s ≤ occ needle (l ++ s))%nat.
Proof. induction l as [|c l IH]; simpl; lia. Qed.

(** After a copied character that is not a line break, what the output
    starts with is what the input starts with, up to the next line break. *)
Lemma linedel_starts_with u : nl ∉ u → ∀ s t,
  LineDel false s t → starts_with u t = true → starts_with u s = true.
Proof.
  intros Hu s t H [t' ->]%starts_with_true. apply starts_with_true.
  revert s H. induction u as [|x u IH]; intros s H; [by eexists|].
  apply linedel_false_inv in H as [[_ ?]|(c & s' & t1 & -> & [= <- <-] & H)]; [done|].
  assert (is_nl x = false) as Hx.
  { apply N.eqb_neq. intros ->. apply Hu. by left. }
  rewrite Hx in H. destruct (IH ltac:(set_solver) _ H) as [s1 ->]. by eexists.
Qed.

Lemma linedel_occ needle b s t :
  nl ∉ needle → LineDel b s t → (occ needle t ≤ occ needle s)%nat.
Proof.
  intros Hn. induction 1 as [b|b c s t H IH|l s t Hl H IH].
  - done.
  - simpl. destruct (starts_with needle (c :: t)) eqn:Ht; [|lia].
    enough (starts_with needle (c :: s) = true) as -> by lia.
    destruct needle as [|x u]; [done|].
    apply starts_with_true in Ht as [t' [= -> ->]].
    assert (is_nl x = false) as Hx.
    { apply N.eqb_neq. intros ->. apply Hn. by left. }
    rewrite Hx in H.
    assert (starts_with u s = true) as [s' ->]%starts_with_true.
    { eapply linedel_starts_with; [|done|]; [set_solver|].
      apply starts_with_true. by eexists. }
    apply starts_with_true. by eexists.
  - pose proof (occ_app_ge needle l s). lia.
Qed.

Lemma count_go_drop needle k s :
  needle ≠ [] → count_go needle k s = count_go needle 0 (drop k s).
Proof.
  intros Hn. revert k. induction s as [|c s IH]; intros [|k]; simpl; done.
Qed.

Lemma occ_drop needle k s :
  (∀ j, (j < k)%nat → starts_with needle (drop j s) = false) →
  occ needle (drop k s) = occ needle s.
Proof.
  revert s. induction k as [|k IH]; intros s Hk; [done|].
  destruct s as [|c s]; [done|]. cbn [drop occ].
  pose proof (Hk 0%nat ltac:(lia)) as H0. cbn [drop] in H0. rewrite H0.
  simpl. apply IH.
  intros j Hj. apply (Hk (S j)). lia.
Qed.

Lemma count_go_occ needle s :
  needle ≠ [] → border_free needle → count_go needle 0 s = occ needle s.
Proof.
  intros Hn Hb. remember (length s) as n eqn:Hlen. revert s Hlen.
  induction n as [n IH] using lt_wf_ind. intros [|c s] Hlen.
  { by destruct needle. }
  simpl. destruct (starts_with needle (c :: s)) eqn:Hs.
  - rewrite count_go_drop by done. f_equal.
    rewrite (IH (length (drop (length needle - 1) s))); [|simpl in Hlen;
      rewrite length_drop; lia|done].
    apply occ_drop. intros j Hj.
    apply (Hb (c :: s) (S j)); [lia | done].
  - simpl. eapply IH; [|done]. simpl in Hlen. lia.
Qed.

Lemma getCached_border_free : border_free getCached.
Proof.
  intros s j Hj [s' ->]%starts_with_true.
  do 9 (destruct j as [|j]; [first [lia | reflexivity]|]). simpl in Hj. lia.
Qed.

Lemma setCache_border_free : border_free setCache.
Proof.
  intros s j Hj [s' ->]%starts_with_true.
  do 8 (destruct j as [|j]; [first [lia | reflexivity]|]). simpl in Hj. lia.
Qed.

Lemma getCached_no_nl : nl ∉ getCached.
Proof. apply (bool_decide_unpack _). by vm_compute. Qed.

Lemma setCache_no_nl : nl ∉ setCache.
Proof. apply (bool_decide_unpack _). by vm_compute. Qed.

Lemma count_getCached s : count s getCached = Z.of_nat (occ getCached s).
Proof. unfold count. by rewrite count_go_occ; [| |apply getCached_border_free]. Qed.

Lemma count_setCache s : count s setCache = Z.of_nat (occ setCache s).
Proof. unfold count. by rewrite count_go_occ; [| |apply setCache_border_free]. Qed.

Lemma linedel_markers s t : LineDel true s t → (markers t ≤ markers s)%Z.
Proof.
  intros H. unfold markers. rewrite !count_getCached, !count_setCache.
  pose proof (linedel_occ _ _ _ _ getCached_no_nl H).
  pose proof (linedel_occ _ _ _ _ setCache_no_nl H). lia.
Qed.

Lemma engine_markers content :
  (markers (remove_cache_blocks content) ≤ markers content)%Z.
Proof.
  apply (engine_chain (λ s t, (markers t ≤ markers s)%Z)).
  - apply linedel_markers.
  - intros. lia.
Qed.

Lemma engine_length content :
  (length (remove_cache_blocks content) ≤ length content)%nat ∧
  (length (remove_cache_blocks content) = length content →
   remove_cache_blocks content = content).
Proof.
  apply (engine_chain (λ s t, (length t ≤ length s)%nat ∧
                              (length t = length s → t = s))).
  - apply linedel_length.
  - intros s t u [H1 H2] [H3 H4]. split; [lia|].
    intros H. rewrite H4 by lia. apply H2. lia.
Qed.

(** ** The loop body, case by case *)

Lemma process_missing dir filename total w :
  files w !! path_join dir filename = None →
  process dir filename total w = Returned total (skipped dir filename w).
Proof.
  intros H. unfold process, bind, path_exists, print, ret, log, skipped.
  rewrite H. rewrite bool_decide_eq_false_2 by (by intros [? ?]).
  simpl. by rewrite <- app_assoc.
Qed.

Lemma process_unchanged dir filename total w original :
  files w !! path_join dir filename = Some original →
  remove_cache_blocks original = original →
  process dir filename total w = Returned total (kept dir filename w).
Proof.
  intros H Heq.
  unfold process, bind, path_exists, read_text, print, ret, log, kept.
  rewrite H. rewrite bool_decide_eq_true_2 by eauto.
  simpl. rewrite H. rewrite bool_decide_eq_true_2 by done.
  simpl. by rewrite <- !app_assoc.
Qed.

Lemma process_changed dir filename total w original :
  files w !! path_join dir filename = Some original →
  remove_cache_blocks original ≠ original →
  process dir filename total w =
    Returned (total + removed_count original (remove_cache_blocks original))%Z
             (rewritten dir filename original w).
Proof.
  intros H Hne.
  unfold process, bind, path_exists, read_text, write_text, print, ret, log,
    rewritten.
  rewrite H. rewrite bool_decide_eq_true_2 by eauto.
  simpl. rewrite H. rewrite bool_decide_eq_false_2 by done.
  simpl. by rewrite <- !app_assoc.
Qed.

Lemma removed_count_nonneg original :
  (0 ≤ removed_count original (remove_cache_blocks original))%Z.
Proof. unfold removed_count. pose proof (engine_markers original). lia. Qed.

(** The three cases are all there is: the body always returns. *)
Lemma process_cases dir filename total w :
  (files w !! path_join dir filename = None ∧
   process dir filename total w = Returned total (skipped dir filename w)) ∨
  (∃ original, files w !! path_join dir filename = Some original ∧
     remove_cache_blocks original = original ∧
     process dir filename total w = Returned total (kept dir filename w)) ∨
  (∃ original, files w !! path_join dir filename = Some original ∧
     remove_cache_blocks original ≠ original ∧
     process dir filename total w =
       Returned (total + removed_count original (remove_cache_blocks original))%Z
                (rewritten dir filename original w)).
Proof.
  destruct (files w !! path_join dir filename) as [original|] eqn:H.
  - right. destruct (decide (remove_cache_blocks original = original)) as [He|Hne].
    + left. exists original. by rewrite (process_unchanged _ _ _ _ _ H He).
    + right. exists original. by rewrite (process_changed _ _ _ _ _ H Hne).
  - left. by rewrite (process_missing _ _ _ _ H).
Qed.

Lemma for_each_cons dir filename rest total w total1 w1 :
  process dir filename total w = Returned total1 w1 →
  for_each dir (filename :: rest) total w = for_each dir rest total1 w1.
Proof. intros H. simpl. unfold bind. by rewrite H. Qed.

Lemma for_each_app dir before rest total w total1 w1 :
  for_each dir before total w = Returned total1 w1 →
  for_each dir (before ++ rest) total w = for_each dir rest total1 w1.
Proof.
  revert total w. induction before as [|f before IH]; intros total w H.
  - by injection H as -> ->.
  - simpl in *. unfold bind in *.
    destruct (process dir f total w) as [t2 w2|]; [|done]. by apply IH.
Qed.

Lemma for_each_returns dir providers total w :
  ∃ total' w', for_each dir providers total w = Returned total' w' ∧
               (total ≤ total')%Z ∧
               (∀ p, files w !! p = None → files w' !! p = None).
Proof.
  revert total w. induction providers as [|f rest IH]; intros total w.
  { exists total, w. by repeat split. }
  destruct (process_cases dir f total w)
    as [[Hf H]|[(o & Hf & Ho & H)|(o & Hf & Ho & H)]];
    rewrite (for_each_cons _ _ _ _ _ _ _ H);
    match goal with |- context [for_each _ _ ?t ?w1] =>
      destruct (IH t w1) as (total' & w' & -> & Hle & Hw) end;
    exists total', w'; (split; [done|]); split.
  - done.
  - intros p Hp. by apply Hw.
  - done.
  - intros p Hp. by apply Hw.
  - pose proof (removed_count_nonneg o). lia.
  - intros p Hp. apply Hw. simpl.
    rewrite lookup_insert_ne; [done|]. intros <-. congruence.
Qed.

Lemma sum_counts_ext dir providers (fs1 fs2 : gmap string text) :
  (∀ f, f ∈ providers → fs1 !! path_join dir f = fs2 !! path_join dir f) →
  sum_counts dir providers fs1 = sum_counts dir providers fs2.
Proof.
  induction providers as [|f rest IH]; intros H; [done|].
  simpl. rewrite (H f) by (by left). rewrite IH; [done|].
  intros g Hg. apply H. by right.
Qed.

Lemma process_events dir filename total w total' w' :
  process dir filename total w = Returned total' w' →
  events w `prefix_of` events w'.
Proof.
  destruct (process_cases dir filename total w)
    as [[_ ->]|[(o & _ & _ & ->)|(o & _ & _ & ->)]];
    intros [= <- <-]; by eexists.
Qed.

Lemma for_each_total dir providers : ∀ total w,
  NoDup (path_join dir <$> providers) →
  ∃ w', for_each dir providers total w =
          Returned (total + sum_counts dir providers (files w))%Z w' ∧
        events w `prefix_of` events w' ∧
        (∀ p, p ∉ path_join dir <$> providers → files w' !! p = files w !! p) ∧
        (∀ f original, f ∈ providers →
           files w !! path_join dir f = Some original →
           remove_cache_blocks original ≠ original →
           EPrint (Removed f (markers original
                              - markers (remove_cache_blocks original)))
             ∈ events w').
Proof.
  induction providers as [|f rest IH]; intros total w Hnd.
  { exists w. simpl. unfold ret. rewrite Z.add_0_r.
    repeat split; [done..|]. intros ? ? H. by apply elem_of_nil in H. }
  rewrite fmap_cons in Hnd. apply NoDup_cons in Hnd as [Hf Hnd].
  destruct (process_cases dir f total w)
    as [[Hw H]|[(o & Hw & Ho & H)|(o & Hw & Ho & H)]];
    rewrite (for_each_cons _ _ _ _ _ _ _ H);
    pose proof (process_events _ _ _ _ _ _ H) as Hev;
    match goal with |- context [for_each _ _ ?t ?w1] =>
      destruct (IH t w1 Hnd) as (w' & -> & Hpre & Hfs & Hrem) end;
    exists w'; simpl in *; rewrite Hw; simpl.
  - split; [done|]. split; [by etrans|]. split.
    + intros p Hp. apply Hfs. intros ?. apply Hp. by right.
    + intros g original [->|Hg]%elem_of_cons Hg1 Hg2; [congruence|].
      by apply Hrem.
  - rewrite bool_decide_eq_true_2 by done.
    split; [done|]. split; [by etrans|]. split.
    + intros p Hp. apply Hfs. intros ?. apply Hp. by right.
    + intros g original [->|Hg]%elem_of_cons Hg1 Hg2; [congruence|].
      by apply Hrem.
  - rewrite bool_decide_eq_false_2 by done.
    assert (∀ g, g ∈ rest →
      <[path_join dir f:=remove_cache_blocks o]> (files w) !! path_join dir g
      = files w !! path_join dir g) as Hother.
    { intros g Hg. apply lookup_insert_ne. intros Heq. apply Hf.
      rewrite Heq. by apply list_elem_of_fmap_2. }
    rewrite (sum_counts_ext _ _ _ (files w) Hother).
    split; [f_equal; unfold removed_count; lia|]. split; [by etrans|]. split.
    + intros p Hp. rewrite Hfs by (intros ?; apply Hp; by right).
      apply lookup_insert_ne. intros <-. apply Hp. by left.
    + intros g original [->|Hg]%elem_of_cons Hg1 Hg2.
      * assert (original = o) as -> by congruence.
        eapply elem_of_prefix; [|exact Hpre]. unfold rewritten. simpl.
        apply elem_of_app. right. unfold removed_count. set_solver.
      * apply Hrem; [done| |done]. by rewrite Hother.
Qed.

(** * The engine *)

Lemma lines_concat s : concat (lines s) = s.
Proof.
  induction s as [|c s IH]; [done|]. simpl.
  destruct (is_nl c); simpl; [by rewrite IH|].
  destruct (lines s) as [|l ls]; simpl in *; by rewrite <- IH.
Qed.

Example block_guard_removed :
  remove_cache_blocks block_guard = text_of "  return fetch(id);" ++ [nl].
Proof. by vm_compute. Qed.

(** C1, counterexample: on [split_guard] the first run removes the cache
    write, which brings the lookup line and its guard together; the second
    run then removes both, so the second output differs from the first. *)
Lemma second_run_changes_split_guard :
  remove_cache_blocks split_guard =
    text_of "const cached = getCached(cacheKey);" ++ [nl] ++
    text_of "if (cached) return cached;" ++ [nl]
  ∧ remove_cache_blocks (remove_cache_blocks split_guard) = []
  ∧ remove_cache_blocks (remove_cache_blocks split_guard)
    ≠ remove_cache_blocks split_guard.
Proof. by vm_compute. Qed.

(** C1, amended: a run of the engine that changes the text makes it
    shorter, so running the engine again and again reaches, after at most
    [length content] runs, a text that a further run leaves unchanged. *)
Theorem engine_reaches_fixed_point content :
  ∃ n, (n ≤ length content)%nat ∧
       remove_cache_blocks (iter_engine n content) = iter_engine n content.
Proof.
  remember (length content) as m eqn:Hm. revert content Hm.
  induction m as [m IH] using lt_wf_ind. intros content Hm.
  destruct (decide (remove_cache_blocks content = content)) as [He|Hne].
  - exists 0%nat. split; [lia | done].
  - destruct (engine_length content) as [Hle Heq].
    assert (length (remove_cache_blocks content) < m)%nat as Hlt.
    { destruct (decide (length (remove_cache_blocks content) = length content));
        [by apply Heq in e | lia]. }
    destruct (IH _ Hlt _ eq_refl) as (n & Hn & Hfix).
    exists (S n). split; [lia | done].
Qed.

(** C5: the lines of the output, each with its line break, are a
    subsequence of the lines of the input. *)
Theorem remove_cache_blocks_deletes_whole_lines content :
  lines (remove_cache_blocks content) `sublist_of` lines content.
Proof.
  apply (engine_chain (λ s t, lines t `sublist_of` lines s)).
  - apply linedel_lines.
  - intros s t u H1 H2. by etrans.
Qed.

(** C10: when the text is [a ++ l] with [l] its last line and [l] has no
    line break, the output is [a' ++ l] with [l] again its last line. *)
Theorem last_line_without_newline_kept a l :
  a = [] ∨ last a = Some nl → nl ∉ l →
  ∃ a', remove_cache_blocks (a ++ l) = a' ++ l ∧ (a' = [] ∨ last a' = Some nl).
Proof.
  intros Ha Hl. revert a Ha.
  enough (∀ content a, content = a ++ l → a = [] ∨ last a = Some nl →
            ∃ a', remove_cache_blocks content = a' ++ l ∧
                  (a' = [] ∨ last a' = Some nl)) as H by (intros; by eapply H).
  intros content.
  apply (engine_chain (λ s t, ∀ a, s = a ++ l → a = [] ∨ last a = Some nl →
            ∃ a', t = a' ++ l ∧ (a' = [] ∨ last a' = Some nl))).
  - intros s t H a -> Ha.
    destruct (linedel_last_line _ _ _ _ Hl H) as (a' & -> & H').
    exists a'. split; [done|]. by eapply linedel_aligned.
  - intros s t u H1 H2 a Hs Ha.
    destruct (H1 a Hs Ha) as (a1 & Ht & Ha1). by apply (H2 a1).
Qed.

Lemma last_line_without_newline_kept_witness :
  (text_of "const result = compute();" ++ [nl] = []
   ∨ last (text_of "const result = compute();" ++ [nl]) = Some nl)
  ∧ (nl ∉ text_of "setCache(cacheKey, result);")
  ∧ ∃ a', remove_cache_blocks
            ((text_of "const result = compute();" ++ [nl])
             ++ text_of "setCache(cacheKey, result);")
          = a' ++ text_of "setCache(cacheKey, result);"
          ∧ (a' = [] ∨ last a' = Some nl).
Proof.
  assert (nl ∉ text_of "setCache(cacheKey, result);") as Hl.
  { apply (bool_decide_unpack _). by vm_compute. }
  split; [by right|]. split; [exact Hl|].
  apply (last_line_without_newline_kept
           (text_of "const result = compute();" ++ [nl])
           (text_of "setCache(cacheKey, result);")); [by right | exact Hl].
Defined.

Example unterminated_write_unchanged :
  remove_cache_blocks unterminated_write = unterminated_write.
Proof. by vm_compute. Qed.

(** * The batch runner *)



Example demo_total :
  sum_counts demo_dir ["a.js"; "gone.js"; "b.js"]%string demo_files = 1%Z.
Proof. by vm_compute. Qed.

Lemma PROVIDERS_paths_NoDup : NoDup (path_join PROVIDERS_DIR <$> PROVIDERS).
Proof. apply (bool_decide_unpack _). by vm_compute. Qed.

(** [main], with the directory and the thirteen names of the script. *)
Lemma main_total w :
  ∃ w', main w = Returned (sum_counts PROVIDERS_DIR PROVIDERS (files w)) w'
      ∧ last (events w')
        = Some (EPrint (Total (sum_counts PROVIDERS_DIR PROVIDERS (files w)) 13)).
Proof.
  destruct (for_each_total PROVIDERS_DIR PROVIDERS 0%Z w PROVIDERS_paths_NoDup)
    as (w1 & H & _).
  rewrite Z.add_0_l in H. eexists. unfold main, run, bind. rewrite H.
  split; [reflexivity|]. simpl. apply last_snoc.
Qed.

(** C7: an entry whose path does not exist is only tested and reported:
    nothing is read or written, the total is unchanged, the loop goes on
    with the remaining entries, and the run returns. *)
Theorem missing_file_is_skipped dir before filename rest total w :
  files w !! path_join dir filename = None →
  ∃ total1 w1,
    for_each dir before total w = Returned total1 w1
    ∧ process dir filename total1 w1
      = Returned total1
          (World (files w1)
                 (events w1 ++ [EExists (path_join dir filename);
                                EPrint (NotFound filename)]))
    ∧ for_each dir (before ++ filename :: rest) total w
      = for_each dir rest total1
          (World (files w1)
                 (events w1 ++ [EExists (path_join dir filename);
                                EPrint (NotFound filename)]))
    ∧ ∃ total' w', run dir (before ++ filename :: rest) w = Returned total' w'.
Proof.
  intros Hw.
  destruct (for_each_returns dir before total w) as (total1 & w1 & H1 & _ & Hnone).
  pose proof (process_missing dir filename total1 w1 (Hnone _ Hw)) as Hp.
  exists total1, w1. split; [done|]. split; [done|]. split.
  - rewrite (for_each_app _ _ _ _ _ _ _ H1).
    by rewrite (for_each_cons _ _ _ _ _ _ _ Hp).
  - destruct (for_each_returns dir (before ++ filename :: rest) 0%Z w)
      as (total' & w' & H & _).
    unfold run, bind. rewrite H. by eexists _, _.
Qed.

Lemma missing_file_is_skipped_witness :
  files demo_world !! path_join demo_dir "gone.js" = None
  ∧ ∃ total1 w1,
      for_each demo_dir ["a.js"%string] 0%Z demo_world = Returned total1 w1
      ∧ process demo_dir "gone.js" total1 w1
        = Returned total1
            (World (files w1)
                   (events w1 ++ [EExists (path_join demo_dir "gone.js");
                                  EPrint (NotFound "gone.js")]))
      ∧ for_each demo_dir (["a.js"%string] ++ "gone.js"%string :: ["b.js"%string])
          0%Z demo_world
        = for_each demo_dir ["b.js"%string] total1
            (World (files w1)
                   (events w1 ++ [EExists (path_join demo_dir "gone.js");
                                  EPrint (NotFound "gone.js")]))
      ∧ ∃ total' w',
          run demo_dir (["a.js"%string] ++ "gone.js"%string :: ["b.js"%string])
            demo_world = Returned total' w'.
Proof.
  assert (files demo_world !! path_join demo_dir "gone.js" = None) as H.
  { by vm_compute. }
  split; [exact H|].
  exact (missing_file_is_skipped demo_dir ["a.js"%string] "gone.js"
           ["b.js"%string] 0%Z demo_world H).
Defined.

(** C8: when the engine returns the text of a file as it is, the file is
    tested and read, not written; the store and the total stay as they
    were. *)
Theorem unchanged_file_is_not_written dir filename total w original :
  files w !! path_join dir filename = Some original →
  remove_cache_blocks original = original →
  process dir filename total w
  = Returned total
      (World (files w)
             (events w ++ [EExists (path_join dir filename);
                           ERead (path_join dir filename);
                           EPrint (NoChange filename)])).
Proof. apply process_unchanged. Qed.

Lemma unchanged_file_is_not_written_witness :
  files demo_world !! path_join demo_dir "b.js" = Some (text_of "let x = 1;")
  ∧ remove_cache_blocks (text_of "let x = 1;") = text_of "let x = 1;"
  ∧ process demo_dir "b.js" 7%Z demo_world
    = Returned 7%Z
        (World (files demo_world)
               (events demo_world ++ [EExists (path_join demo_dir "b.js");
                                      ERead (path_join demo_dir "b.js");
                                      EPrint (NoChange "b.js")])).
Proof.
  assert (files demo_world !! path_join demo_dir "b.js"
          = Some (text_of "let x = 1;")) as H1 by (by vm_compute).
  assert (remove_cache_blocks (text_of "let x = 1;") = text_of "let x = 1;")
    as H2 by (by vm_compute).
  split; [exact H1|]. split; [exact H2|].
  exact (unchanged_file_is_not_written demo_dir "b.js" 7%Z demo_world
           (text_of "let x = 1;") H1 H2).
Defined.

(** C9: the count of a file is never negative, because the engine deletes
    whole lines and neither marker name contains a line break; so the loop
    returns a total that is at least the total it started from, wherever
    in the run it starts. *)
Theorem total_never_decreases dir providers total w original :
  (0 ≤ removed_count original (remove_cache_blocks original))%Z
  ∧ ∃ total' w', for_each dir providers total w = Returned total' w'
                 ∧ (total ≤ total')%Z.
Proof.
  split; [apply removed_count_nonneg|].
  destruct (for_each_returns dir providers total w) as (total' & w' & H & Hle & _).
  by exists total', w'.
Qed.

(** * Rule 3 and rule 4 *)

Lemma MSeq' r1 r2 b l1 l2 l s :
  l = l1 ++ l2 → Matches r1 b l1 (l2 ++ s) → Matches r2 (after b l1) l2 s →
  Matches (r1 ⋅ r2) b l s.
Proof. intros ->. apply MSeq. Qed.

Lemma all_in_app cl w1 w2 : all_in cl w1 → all_in cl w2 → all_in cl (w1 ++ w2).
Proof. apply Forall_app_2. Qed.

Lemma in_none_of ex c : in_class (NoneOf ex) c = true ↔ c ∉ ex.
Proof.
  simpl. rewrite negb_true_iff. split.
  - intros H Hc%list_elem_of_In.
    assert (existsb (N.eqb c) ex = true) as Ht; [|congruence].
    apply existsb_exists. exists c. by rewrite N.eqb_refl.
  - intros H. destruct (existsb (N.eqb c) ex) eqn:E; [|done].
    apply existsb_exists in E as (d & Hd & ->%N.eqb_eq).
    by apply list_elem_of_In in Hd.
Qed.

Lemma space_no_semicolon w : all_in Space w → all_in (NoneOf (text_of ";")) w.
Proof.
  intros H. eapply Forall_impl; [exact H|]. intros c Hc.
  apply in_none_of. change (text_of ";") with [59]. intros ->%list_elem_of_singleton.
  by vm_compute in Hc.
Qed.

Lemma digit_no_semicolon w : all_in Digit w → all_in (NoneOf (text_of ";")) w.
Proof.
  intros H. eapply Forall_impl; [exact H|]. intros c Hc.
  apply in_none_of. change (text_of ";") with [59]. intros ->%list_elem_of_singleton.
  by vm_compute in Hc.
Qed.

Lemma all_in_literal cl (l : text) :
  forallb (in_class cl) l = true → all_in cl l.
Proof. intros H. apply Forall_forall. intros c Hc%list_elem_of_In.
  by apply (proj1 (forallb_forall _ _) H). Qed.

Lemma pattern3_inv b l s :
  Matches pattern3 b l s →
  b = true ∧ ∃ w x w',
    l = w ++ text_of "setCache(" ++ x ++ text_of ");" ++ w' ++ [nl] ∧
    all_in Space w ∧ x ≠ [] ∧ all_in (NoneOf (text_of ";")) x ∧ all_in Space w'.
Proof.
  intros M. unfold pattern3 in M. inv_matches. split; [done|].
  by eexists _, _, _.
Qed.

Lemma pattern3_intro w x w' s :
  all_in Space w → x ≠ [] → all_in (NoneOf (text_of ";")) x → all_in Space w' →
  Matches pattern3 true
    (w ++ text_of "setCache(" ++ x ++ text_of ");" ++ w' ++ [nl]) s.
Proof.
  intros Hw Hx1 Hx2 Hw'. unfold pattern3.
  eapply (MSeq' _ _ _ []); [reflexivity | constructor |].
  apply MSeq; [by constructor|].
  apply MSeq; [by constructor|].
  apply MSeq; [by constructor|].
  apply MSeq; [by constructor|].
  apply MSeq; by constructor.
Qed.

(** Whatever rule 4 matches, rule 3 matches too, from the same line start
    to the same line end. *)
Lemma pattern4_pattern3 b l s : Matches pattern4 b l s → Matches pattern3 b l s.
Proof.
  intros M. unfold pattern4 in M. inv_matches. cbn [app].
  match goal with
  | |- Matches _ _ (?w ++ ?a ++ ?x ++ ?c ++ ?w2 ++ ?d ++ ?e ++ ?w' ++ ?n) _ =>
      replace (w ++ a ++ x ++ c ++ w2 ++ d ++ e ++ w' ++ n)
        with (w ++ a ++ (x ++ c ++ w2 ++ d) ++ e ++ w' ++ n)
        by (by rewrite <- !app_assoc)
  end.
  apply pattern3_intro; try done.
  - by destruct l0.
  - repeat apply all_in_app; try done.
    + by apply all_in_literal.
    + by apply space_no_semicolon.
    + by apply digit_no_semicolon.
Qed.

Lemma app_split (u s a r : text) :
  u ++ s = a ++ r →
  (∃ k, a = u ++ k ∧ s = k ++ r) ∨ (∃ k, k ≠ [] ∧ u = a ++ k ∧ k ++ s = r).
Proof.
  intros [(k & -> & ->)|(k & -> & ->)]%app_eq_inv.
  - destruct k as [|c k].
    + left. exists []. by rewrite !app_nil_r.
    + right. by exists (c :: k).
  - left. by exists k.
Qed.

(** A text that ends where a line starts cannot end in the middle of a
    literal that has no line break. *)
Lemma literal_not_cut b (p k a k' : text) :
  k ≠ [] → a = k ++ k' → forallb (λ c, negb (is_nl c)) a = true →
  after b (p ++ k) = true → False.
Proof.
  intros Hk -> Ha. unfold after. rewrite last_app.
  destruct (last k) as [c|] eqn:E; [|by apply last_None in E].
  intros Hc. apply last_Some_elem_of, list_elem_of_In in E.
  rewrite forallb_app in Ha. apply andb_true_iff in Ha as [Ha _].
  apply (proj1 (forallb_forall _ _) Ha) in E. by rewrite Hc in E.
Qed.

Lemma after_true_last b u : u ≠ [] → after b u = true → ∃ u', u = u' ++ [nl].
Proof.
  intros Hu. unfold after.
  destruct (last u) as [c|] eqn:E; [|by apply last_None in E].
  intros ->%N.eqb_eq. by apply last_Some.
Qed.

Lemma after_suffix b p k : k ≠ [] → after b (p ++ k) = true → ∃ k', k = k' ++ [nl].
Proof.
  intros Hk H. rewrite <- after_app in H. by eapply after_true_last.
Qed.

(** Putting a segment that rule 3 matched back in front of a line start
    cannot destroy a match that begins before it: the match either lies
    before the segment, or its leading white space or its argument list
    runs into the segment and ends where the segment's own call ends. *)
Lemma pattern3_insert b u m s l s' :
  after b u = true → Matches pattern3 true m s → Matches pattern3 b l s' →
  u ++ s = l ++ s' →
  ∃ l2 s2, u ++ m ++ s = l2 ++ s2 ∧ Matches pattern3 b l2 s2.
Proof.
  intros Hu Mm Ml Heq.
  apply pattern3_inv in Mm as (_ & wm & xm & wm' & -> & Hwm & Hxm & Hxm' & Hwm').
  apply pattern3_inv in Ml as (-> & w & x & w' & -> & Hw & Hx & Hx' & Hw').
  rewrite <- !app_assoc in Heq.
  apply app_split in Heq as [(k & -> & ->)|(k & Hk & -> & Heq)].
  { (* the cut is in the leading white space *)
    apply Forall_app in Hw as [Hw1 Hw2].
    exists ((u ++ wm) ++ text_of "setCache(" ++ xm ++ text_of ");" ++ wm' ++ [nl]).
    eexists. split; [by rewrite <- !app_assoc|].
    apply pattern3_intro; try done. by apply all_in_app. }
  apply app_split in Heq as [(k' & Hlit & _)|(k2 & Hk2 & -> & Heq)].
  { exfalso. by eapply (literal_not_cut _ _ _ _ _ Hk Hlit). }
  apply app_split in Heq as [(x2 & -> & ->)|(k3 & Hk3 & -> & Heq)].
  { (* the cut is in the argument list *)
    apply Forall_app in Hx' as [Hx1 Hx2].
    exists (w ++ text_of "setCache("
              ++ (k2 ++ wm ++ text_of "setCache(" ++ xm) ++ text_of ");"
              ++ wm' ++ [nl]).
    eexists. split; [by rewrite <- !app_assoc|].
    apply pattern3_intro; try done.
    - by destruct k2.
    - repeat apply all_in_app; try done.
      + by apply space_no_semicolon.
      + by apply all_in_literal. }
  apply app_split in Heq as [(k' & Hlit & _)|(k4 & Hk4 & -> & Heq)].
  { exfalso. rewrite !app_assoc in Hu.
    by eapply (literal_not_cut _ _ _ _ _ Hk3 Hlit). }
  apply app_split in Heq as [(w2 & -> & ->)|(k6 & Hk6 & -> & Heq)].
  { (* the cut is in the trailing white space: the match ends before it *)
    rewrite !app_assoc in Hu. apply after_suffix in Hu as [k5 ->]; [|done].
    apply Forall_app in Hw' as [[Hk5 _]%Forall_app _].
    exists (w ++ text_of "setCache(" ++ x ++ text_of ");" ++ k5 ++ [nl]).
    eexists. split; [by rewrite <- !app_assoc|].
    by apply pattern3_intro. }
  (* the cut is behind the match *)
  destruct k6 as [|c k7]; [done|]. injection Heq as -> <-.
  exists (w ++ text_of "setCache(" ++ x ++ text_of ");" ++ w' ++ [nl]).
  eexists. split; [by rewrite <- !app_assoc|].
  by apply pattern3_intro.
Qed.

Lemma no_match_insert b u m s :
  after b u = true → Matches pattern3 true m s →
  no_match pattern3 b (u ++ m ++ s) → no_match pattern3 b (u ++ s).
Proof.
  intros Hu Mm Hno l s' Heq Ml.
  destruct (pattern3_insert _ _ _ _ _ _ Hu Mm Ml Heq) as (l2 & s2 & H2 & M2).
  by apply (Hno l2 s2).
Qed.

(** Where rule 3 found no match before the pass, it finds none after it. *)
Lemma scan3_transfer b' s t :
  Scan pattern3 b' s t → ∀ b u, after b u = b' →
  no_match pattern3 b (u ++ s) → no_match pattern3 b (u ++ t).
Proof.
  induction 1 as [b'|b' c s t Hno Hs IH|b' l s t Hne M Hs IH]; intros b u Hu Hn.
  - done.
  - rewrite cons_middle, app_assoc. apply IH.
    + rewrite <- after_app. by rewrite after_cons.
    + by rewrite <- app_assoc.
  - destruct (pattern3_line_rule _ _ _ M) as [-> Hl].
    rewrite (after_last _ _ _ Hl) in IH. apply IH; [done|].
    by apply (no_match_insert _ _ l).
Qed.

(** After the pass of rule 3, rule 3 matches nowhere. *)
Lemma scan3_clean b s t : Scan pattern3 b s t → Clean pattern3 b t.
Proof.
  induction 1 as [b|b c s t Hno Hs IH|b l s t Hne M Hs IH].
  - constructor.
  - constructor; [|done].
    apply (scan3_transfer _ _ _ Hs b [c]); [by rewrite after_cons | done].
  - destruct (pattern3_line_rule _ _ _ M) as [-> Hl].
    by rewrite (after_last _ _ _ Hl) in IH.
Qed.

Lemma clean_weaken (r r' : regex) b s :
  (∀ b l s, Matches r' b l s → Matches r b l s) → Clean r b s → Clean r' b s.
Proof.
  intros Hr. induction 1 as [b|b c s Hno Hc IH]; constructor; [|done].
  intros l s' Heq M. by apply (Hno l s' Heq), Hr.
Qed.

Lemma re_sub_clean r content :
  consuming r → Clean r true content → re_sub r content = content.
Proof.
  intros Hr Hc. eapply clean_scan; [done|]. by apply re_sub_scan.
Qed.

Lemma pattern4_after_pattern3 content :
  re_sub pattern4 (re_sub pattern3 content) = re_sub pattern3 content.
Proof.
  apply re_sub_clean; [auto with rules|].
  apply (clean_weaken pattern3); [apply pattern4_pattern3|].
  eapply scan3_clean, re_sub_scan. auto with rules.
Qed.

(** C2: rule 4 never finds a match in what rule 3 returns, so the engine
    and the engine without rule 4 return the same text; and what rule 4
    could match, rule 3 matches. *)
Theorem rule4_is_dead_code content :
  re_sub pattern4 (re_sub pattern3 (re_sub pattern2 (re_sub pattern1 content)))
  = re_sub pattern3 (re_sub pattern2 (re_sub pattern1 content))
  ∧ remove_cache_blocks content = remove_cache_blocks_without_rule4 content
  ∧ ∀ b l s, Matches pattern4 b l s → Matches pattern3 b l s.
Proof.
  split; [apply pattern4_after_pattern3|]. split; [|apply pattern4_pattern3].
  unfold remove_cache_blocks, remove_cache_blocks_without_rule4.
  by rewrite pattern4_after_pattern3.
Qed.

Lemma rule4_is_dead_code_witness :
  Matches pattern4 true ttl_write []
  ∧ Matches pattern3 true ttl_write []
  ∧ re_sub pattern4
      (re_sub pattern3 (re_sub pattern2 (re_sub pattern1 ttl_write)))
    = re_sub pattern3 (re_sub pattern2 (re_sub pattern1 ttl_write))
  ∧ remove_cache_blocks ttl_write = remove_cache_blocks_without_rule4 ttl_write.
Proof.
  assert (Matches pattern4 true ttl_write []) as M4.
  { destruct (match_at_sound pattern4 true ttl_write true [])
      as (l & Hl & M & _); [by vm_compute|].
    rewrite app_nil_r in Hl. by subst l. }
  destruct (rule4_is_dead_code ttl_write) as (H1 & H2 & H3).
  split; [exact M4|]. split; [exact (H3 _ _ _ M4)|]. exact (conj H1 H2).
Defined.

Example ttl_write_removed_by_rule3 :
  re_sub pattern3 ttl_write = [] ∧ re_sub pattern4 ttl_write = [].
Proof. by vm_compute. Qed.

(** * Rule 1 *)

Lemma blank_space w : blank w → all_in Space w.
Proof. intros H. eapply Forall_impl; [exact H|]. by intros c [? _]. Qed.

Lemma blank_no_nl w : blank w → nl ∉ w.
Proof.
  intros H Hnl. apply (proj1 (Forall_forall _ _) H) in Hnl. by destruct Hnl.
Qed.

Lemma literal_no_nl (l : text) :
  forallb (λ c, negb (is_nl c)) l = true → nl ∉ l.
Proof.
  intros H Hnl%list_elem_of_In. by apply (proj1 (forallb_forall _ _) H) in Hnl.
Qed.

(** A non-empty piece that ends with a line break and starts a one-line
    text is that whole line. *)
Lemma line_prefix body (k k' : text) :
  nl ∉ body → last k = Some nl → body ++ [nl] = k ++ k' →
  k' = [] ∧ k = body ++ [nl].
Proof.
  intros Hb [k0 ->]%last_Some Heq.
  destruct k' as [|c k'] using rev_ind; [by rewrite app_nil_r in Heq|].
  exfalso. apply Hb. clear IHk'. rewrite !app_assoc in Heq.
  apply app_inj_tail in Heq as [-> _]. rewrite <- app_assoc.
  apply elem_of_app. right. by left.
Qed.

Lemma pattern1_inv b l s :
  Matches pattern1 b l s →
  b = true ∧ ∃ w1 x w2 w3 w4,
    l = w1 ++ text_of "const cached = getCached(" ++ x ++ text_of ");"
           ++ w2 ++ [nl] ++ w3 ++ text_of "if (cached) return cached;"
           ++ w4 ++ [nl] ∧
    all_in Space w1 ∧ x ≠ [] ∧ all_in (NoneOf (text_of ")")) x ∧
    all_in Space w2 ∧ all_in Space w3 ∧ all_in Space w4.
Proof.
  intros M. unfold pattern1 in M. inv_matches. split; [done|].
  by eexists _, _, _, _, _.
Qed.


(** Behind the last character that is not white space there is only one
    way to split off the white space. *)
Lemma space_suffix_unique (a a' w w' : text) c c' :
  all_in Space w → all_in Space w' → is_space c = false → is_space c' = false →
  a ++ c :: w = a' ++ c' :: w' → a = a' ∧ c = c' ∧ w = w'.
Proof.
  revert w'. induction w as [|d w IH] using rev_ind; intros w' Hw Hw' Hc Hc' Heq.
  - destruct w' as [|d' w' _] using rev_ind.
    + apply (app_inj_tail a a' c c') in Heq as [-> ->]. done.
    + exfalso. apply Forall_app in Hw' as [_ Hd']. inversion_clear Hd' as [|? ? Hd _].
      rewrite (app_comm_cons w'), app_assoc in Heq.
      apply (app_inj_tail a _ c d') in Heq as [_ ->]. simpl in Hd. congruence.
  - apply Forall_app in Hw as [Hw Hd]. inversion_clear Hd as [|? ? Hd1 _].
    destruct w' as [|d' w' _] using rev_ind.
    + exfalso. rewrite (app_comm_cons w), app_assoc in Heq.
      apply (app_inj_tail _ a' d c') in Heq as [_ ->]. simpl in Hd1. congruence.
    + apply Forall_app in Hw' as [Hw' _].
      rewrite (app_comm_cons w), (app_comm_cons w'), !app_assoc in Heq.
      apply app_inj_tail in Heq as [Heq ->].
      destruct (IH w' Hw Hw' Hc Hc' Heq) as (-> & -> & ->). done.
Qed.

(** No match of rule 1 ends with a lookup line: the match ends with
    "cached;" and white space, the lookup line with ");" and white space. *)
Lemma pattern1_not_lookup_end b l s u w1 x w2 :
  Matches pattern1 b l s → all_in Space w2 →
  l = u ++ w1 ++ text_of "const cached = getCached(" ++ x ++ text_of ");"
        ++ w2 ++ [nl] → False.
Proof.
  intros M Hw2 Heq.
  apply pattern1_inv in M
    as (_ & v1 & y & v2 & v3 & v4 & -> & _ & _ & _ & _ & _ & Hv4).
  assert (((v1 ++ text_of "const cached = getCached(" ++ y ++ text_of ");"
               ++ v2 ++ [nl] ++ v3 ++ text_of "if (cached) return cache")
             ++ [100]) ++ 59 :: v4
          = ((u ++ w1 ++ text_of "const cached = getCached(" ++ x)
             ++ [41]) ++ 59 :: w2) as H.
  { apply (app_inj_tail _ _ nl nl). rewrite <- !app_assoc. exact Heq. }
  apply space_suffix_unique in H as (H & _ & _); [|done..].
  by apply app_inj_tail in H as [_ [=]].
Qed.

Lemma last_app_nonempty (u k : text) : k ≠ [] → last (u ++ k) = last k.
Proof.
  intros Hk. rewrite last_app. destruct (last k) eqn:E; [done|].
  by apply last_None in E.
Qed.

Lemma linedel_drop_aligned (d s t : text) :
  d = [] ∨ last d = Some nl → LineDel true s t → LineDel true (d ++ s) t.
Proof. intros [->|Hd] H; [done|]. by constructor. Qed.




Lemma blank_check (w : text) :
  forallb (λ c, is_space c && negb (is_nl c)) w = true → blank w.
Proof.
  intros H. apply Forall_forall. intros c Hc%list_elem_of_In.
  apply (proj1 (forallb_forall _ _) H) in Hc.
  apply andb_true_iff in Hc as [? Hn]. split; [done|].
  intros ->. by vm_compute in Hn.
Qed.


(** * The orphaned key rule: what it matches *)

Lemma skip_space_app v r : all_in Space v → skip_space (v ++ r) = skip_space r.
Proof. induction 1 as [|c v Hc Hv IH]; [done|]. simpl in *. by rewrite Hc. Qed.

Lemma skip_space_split s : ∃ v, all_in Space v ∧ s = v ++ skip_space s.
Proof.
  induction s as [|c s (v & Hv & IH)]; [by exists []; split; [constructor|]|].
  simpl. destruct (is_space c) eqn:Hc.
  - exists (c :: v). split; [by constructor|]. simpl. by f_equal.
  - exists []. split; [constructor | done].
Qed.

Lemma log_or_try_follows_intro v k rest :
  all_in Space v → k = text_of "log." ∨ k = text_of "try" →
  log_or_try_follows (v ++ k ++ rest) = true.
Proof.
  intros Hv Hk. unfold log_or_try_follows. rewrite skip_space_app by done.
  by destruct Hk as [-> | ->].
Qed.

Lemma log_or_try_follows_inv next :
  log_or_try_follows next = true →
  ∃ v k rest, next = v ++ k ++ rest ∧ all_in Space v ∧
              (k = text_of "log." ∨ k = text_of "try").
Proof.
  unfold log_or_try_follows. intros H.
  destruct (skip_space_split next) as (v & Hv & Hn).
  apply orb_true_iff in H as [[rest H]%starts_with_true|[rest H]%starts_with_true];
    rewrite H in Hn; eexists v, _, rest; eauto.
Qed.

Lemma pattern_unused_key_inv b l s :
  Matches pattern_unused_key b l s →
  b = true ∧ ∃ w x w',
    l = w ++ text_of "const cacheKey = " ++ x ++ text_of ";" ++ w' ++ [nl] ∧
    all_in Space w ∧ x ≠ [] ∧ all_in (NoneOf (text_of ";")) x ∧
    all_in Space w' ∧ log_or_try_follows s = true.
Proof.
  intros M. unfold pattern_unused_key in M. inv_matches;
    (split; [done|]; eexists _, _, _; rewrite app_nil_r;
     repeat (split; [done|]); rewrite <- app_assoc;
     apply log_or_try_follows_intro; auto).
Qed.

Lemma pattern_unused_key_intro w x w' s :
  all_in Space w → x ≠ [] → all_in (NoneOf (text_of ";")) x → all_in Space w' →
  log_or_try_follows s = true →
  Matches pattern_unused_key true
    (w ++ text_of "const cacheKey = " ++ x ++ text_of ";" ++ w' ++ [nl]) s.
Proof.
  intros Hw Hx Hx' Hw' (v & k & rest & -> & Hv & Hk)%log_or_try_follows_inv.
  unfold pattern_unused_key.
  eapply (MSeq' _ _ _ []); [reflexivity | constructor |].
  do 5 (apply MSeq; [by constructor|]).
  eapply (MSeq' _ _ _ _ []); [by rewrite app_nil_r | constructor |].
  rewrite app_assoc. apply MAhead, MSeq; [by constructor|].
  destruct Hk as [-> | ->]; [apply MAltL | apply MAltR]; constructor.
Qed.

(** In front of the first character outside a class there is only one way
    to split off characters of the class. *)
Lemma class_prefix_unique cl (w w' a a' : text) c c' :
  all_in cl w → all_in cl w' → in_class cl c = false → in_class cl c' = false →
  w ++ c :: a = w' ++ c' :: a' → w = w' ∧ c = c' ∧ a = a'.
Proof.
  intros Hw. revert w'. induction Hw as [|d w Hd Hw IH];
    intros w' Hw' Hc Hc' Heq.
  - destruct Hw' as [|d' w' Hd' Hw']; simplify_eq/=; [done | congruence].
  - destruct Hw' as [|d' w' Hd' Hw']; simplify_eq/=; [congruence|].
    destruct (IH w' Hw' Hc Hc' H0) as (-> & -> & ->). done.
Qed.

Lemma sub_go_no_match_prefix r p : ∀ b s,
  (∀ p1 p2, p = p1 ++ p2 → p2 ≠ [] → match_at r (after b p1) (p2 ++ s) = None) →
  sub_go r 0 b (p ++ s) = p ++ sub_go r 0 (after b p) s.
Proof.
  induction p as [|c p IH]; intros b s H; [done|].
  change ((c :: p) ++ s) with (c :: (p ++ s)).
  rewrite sub_go_copy by (by apply (H [] (c :: p))).
  rewrite IH, after_cons; [done|].
  intros p1 p2 -> Hp2. rewrite <- (after_cons b). by apply (H (c :: p1) p2).
Qed.

Lemma match_at_not_line_start s : match_at pattern_unused_key false s = None.
Proof. reflexivity. Qed.

(** * More on the batch runner *)

Lemma for_each_frame dir providers : ∀ total w,
  ∃ total' w', for_each dir providers total w = Returned total' w'
    ∧ dom (files w') = dom (files w)
    ∧ ∀ p, p ∉ path_join dir <$> providers → files w' !! p = files w !! p.
Proof.
  induction providers as [|f rest IH]; intros total w.
  { exists total, w. by repeat split. }
  destruct (process_cases dir f total w)
    as [[Hf H]|[(o & Hf & Ho & H)|(o & Hf & Ho & H)]];
    rewrite (for_each_cons _ _ _ _ _ _ _ H);
    match goal with |- context [for_each _ _ ?t ?w1] =>
      destruct (IH t w1) as (total' & w' & -> & Hdom & Hfs) end;
    exists total', w'; (split; [done|]); simpl in *.
  - split; [done|]. intros p Hp. apply Hfs. intros ?. apply Hp. by right.
  - split; [done|]. intros p Hp. apply Hfs. intros ?. apply Hp. by right.
  - split.
    + rewrite Hdom. apply dom_insert_lookup_L. by eexists.
    + intros p Hp. rewrite Hfs by (intros ?; apply Hp; by right).
      apply lookup_insert_ne. intros <-. apply Hp. by left.
Qed.

(** X1: the run creates and deletes no file, and leaves every file that
    is not a resolved target path as it was. *)
Theorem run_touches_only_targets dir providers w :
  ∃ total' w', run dir providers w = Returned total' w'
    ∧ dom (files w') = dom (files w)
    ∧ ∀ p, p ∉ path_join dir <$> providers → files w' !! p = files w !! p.
Proof.
  destruct (for_each_frame dir providers 0%Z w) as (total' & w' & H & Hdom & Hfs).
  eexists _, _. unfold run, bind. rewrite H. by repeat split.
Qed.

Lemma for_each_store dir providers : ∀ total w,
  NoDup (path_join dir <$> providers) →
  ∃ total' w', for_each dir providers total w = Returned total' w'
    ∧ ∀ f, f ∈ providers →
        files w' !! path_join dir f
        = remove_cache_blocks <$> files w !! path_join dir f.
Proof.
  induction providers as [|f rest IH]; intros total w Hnd.
  { exists total, w. split; [done|]. intros ? H. by apply elem_of_nil in H. }
  rewrite fmap_cons in Hnd. apply NoDup_cons in Hnd as [Hf Hnd].
  assert (∀ g, g ∈ rest → path_join dir f ≠ path_join dir g) as Hne.
  { intros g Hg Heq. apply Hf. rewrite Heq. by apply list_elem_of_fmap_2. }
  destruct (process_cases dir f total w)
    as [[Hw H]|[(o & Hw & Ho & H)|(o & Hw & Ho & H)]];
    rewrite (for_each_cons _ _ _ _ _ _ _ H);
    match goal with |- context [for_each _ _ ?t ?w1] =>
      destruct (for_each_frame dir rest t w1) as (total' & w' & Hrun & _ & Hfs);
      destruct (IH t w1 Hnd) as (total2 & w2 & Hrun2 & Hst) end;
    rewrite Hrun in Hrun2; injection Hrun2 as <- <-;
    exists total', w'; (split; [done|]); simpl in *;
    intros g [->|Hg]%elem_of_cons.
  - rewrite Hfs by done. by rewrite Hw.
  - by apply Hst.
  - rewrite Hfs by done. rewrite Hw. simpl. by rewrite Ho.
  - by apply Hst.
  - rewrite Hfs by done. rewrite lookup_insert_eq. by rewrite Hw.
  - rewrite Hst by done. by rewrite lookup_insert_ne by by apply Hne.
Qed.

(** X2: when the resolved paths are pairwise distinct, after the run every
    target file that exists holds the engine's output for the text it held
    before, and a target that did not exist still does not. *)
Theorem run_stores_engine_output dir providers w :
  NoDup (path_join dir <$> providers) →
  ∃ total' w', run dir providers w = Returned total' w'
    ∧ ∀ f, f ∈ providers →
        files w' !! path_join dir f
        = remove_cache_blocks <$> files w !! path_join dir f.
Proof.
  intros Hnd.
  destruct (for_each_store dir providers 0%Z w Hnd) as (total' & w' & H & Hst).
  eexists _, _. unfold run, bind. rewrite H. by split.
Qed.

Lemma run_stores_engine_output_witness :
  NoDup (path_join demo_dir <$> ["a.js"; "gone.js"; "b.js"]%string)
  ∧ ∃ total' w',
      run demo_dir ["a.js"; "gone.js"; "b.js"]%string demo_world
      = Returned total' w'
      ∧ ∀ f, f ∈ ["a.js"; "gone.js"; "b.js"]%string →
          files w' !! path_join demo_dir f
          = remove_cache_blocks <$> files demo_world !! path_join demo_dir f.
Proof.
  assert (NoDup (path_join demo_dir <$> ["a.js"; "gone.js"; "b.js"]%string)) as H.
  { apply (bool_decide_unpack _). by vm_compute. }
  split; [exact H|].
  exact (run_stores_engine_output demo_dir ["a.js"; "gone.js"; "b.js"]%string
           demo_world H).
Defined.

Lemma printed_app evs1 evs2 : printed (evs1 ++ evs2) = printed evs1 ++ printed evs2.
Proof. apply omap_app. Qed.

Lemma process_printed dir filename total w total' w' :
  process dir filename total w = Returned total' w' →
  ∃ n, printed (events w') = printed (events w) ++ [n]
       ∧ notice_file n = Some filename.
Proof.
  destruct (process_cases dir filename total w)
    as [[_ ->]|[(o & _ & _ & ->)|(o & _ & _ & ->)]];
    intros [= <- <-]; simpl; rewrite printed_app; by eexists.
Qed.

Lemma for_each_printed dir providers : ∀ total w,
  ∃ total' w' ns, for_each dir providers total w = Returned total' w'
    ∧ printed (events w') = printed (events w) ++ ns
    ∧ notice_file <$> ns = Some <$> providers.
Proof.
  induction providers as [|f rest IH]; intros total w.
  { exists total, w, []. by rewrite app_nil_r. }
  destruct (for_each_returns dir [f] total w) as (t1 & w1 & H1 & _).
  simpl in H1. unfold bind in H1.
  destruct (process dir f total w) as [t1' w1'|] eqn:Hp; [|done].
  injection H1 as -> ->.
  destruct (process_printed _ _ _ _ _ _ Hp) as (n & Hn & Hf).
  destruct (IH t1 w1) as (total' & w' & ns & Hrun & Hns & Hfs).
  exists total', w', (n :: ns). rewrite (for_each_cons _ _ _ _ _ _ _ Hp).
  split; [done|]. split.
  - by rewrite Hns, Hn, <- app_assoc.
  - rewrite !fmap_cons. by rewrite Hf, Hfs.
Qed.

(** X3: the run prints one notice for each entry of the target list, in
    the order of the list and naming that entry, whether the file exists
    or not, and then the summary with the total it returns and the length
    of the list. *)
Theorem run_prints_one_notice_per_entry dir providers w :
  ∃ total' w' ns, run dir providers w = Returned total' w'
    ∧ printed (events w')
      = printed (events w) ++ ns ++ [Total total' (length providers)]
    ∧ notice_file <$> ns = Some <$> providers.
Proof.
  destruct (for_each_printed dir providers 0%Z w)
    as (total' & w' & ns & H & Hns & Hfs).
  exists total', (log (EPrint (Total total' (length providers))) w'), ns.
  unfold run, bind. rewrite H.
  split; [done|]. split; [|done]. unfold log. cbn [events].
  by rewrite printed_app, Hns, <- app_assoc.
Qed.

Lemma for_each_fixed dir providers : ∀ total w,
  (∀ f original, f ∈ providers →
     files w !! path_join dir f = Some original →
     remove_cache_blocks original = original) →
  ∃ w', for_each dir providers total w = Returned total w'
        ∧ files w' = files w
        ∧ ∀ p c, EWrite p c ∈ events w' → EWrite p c ∈ events w.
Proof.
  induction providers as [|f rest IH]; intros total w Hfix.
  { by exists w. }
  destruct (process_cases dir f total w)
    as [[Hw H]|[(o & Hw & Ho & H)|(o & Hw & Ho & H)]];
    rewrite (for_each_cons _ _ _ _ _ _ _ H).
  - destruct (IH total (skipped dir f w)) as (w' & -> & Hfs & Hev).
    { intros g o Hg. apply Hfix. by right. }
    exists w'. split; [done|]. split; [done|]. intros p c Hin.
    apply Hev in Hin. simpl in Hin.
    apply elem_of_app in Hin as [Hin|Hin]; [done|].
    repeat (apply elem_of_cons in Hin as [Hin|Hin]; [done|]).
    by apply elem_of_nil in Hin.
  - destruct (IH total (kept dir f w)) as (w' & -> & Hfs & Hev).
    { intros g o' Hg. apply Hfix. by right. }
    exists w'. split; [done|]. split; [done|]. intros p c Hin.
    apply Hev in Hin. simpl in Hin.
    apply elem_of_app in Hin as [Hin|Hin]; [done|].
    repeat (apply elem_of_cons in Hin as [Hin|Hin]; [done|]).
    by apply elem_of_nil in Hin.
  - exfalso. apply Ho. eapply Hfix; [by left | done].
Qed.

(** X4: when the engine leaves the text of every existing target file as
    it is, the run writes nothing, leaves the store as it was and returns
    the total 0. *)
Theorem run_without_changes dir providers w :
  (∀ f original, f ∈ providers →
     files w !! path_join dir f = Some original →
     remove_cache_blocks original = original) →
  ∃ w', run dir providers w = Returned 0%Z w'
        ∧ files w' = files w
        ∧ ∀ p c, EWrite p c ∈ events w' → EWrite p c ∈ events w.
Proof.
  intros Hfix.
  destruct (for_each_fixed dir providers 0%Z w Hfix) as (w' & H & Hfs & Hev).
  eexists. unfold run, bind. rewrite H. simpl. split; [done|]. split; [done|].
  intros p c Hin. apply Hev.
  apply elem_of_app in Hin as [Hin|Hin]; [done|].
  apply elem_of_cons in Hin as [Hin|Hin]; [done|]. by apply elem_of_nil in Hin.
Qed.

Lemma run_without_changes_witness :
  (∀ f original, f ∈ ["gone.js"; "b.js"]%string →
     files demo_world !! path_join demo_dir f = Some original →
     remove_cache_blocks original = original)
  ∧ ∃ w', run demo_dir ["gone.js"; "b.js"]%string demo_world = Returned 0%Z w'
          ∧ files w' = files demo_world
          ∧ ∀ p c, EWrite p c ∈ events w' → EWrite p c ∈ events demo_world.
Proof.
  assert (∀ f original, f ∈ ["gone.js"; "b.js"]%string →
     files demo_world !! path_join demo_dir f = Some original →
     remove_cache_blocks original = original) as H.
  { intros f o [->|[->|[]%elem_of_nil]%elem_of_cons]%elem_of_cons.
    - assert (files demo_world !! path_join demo_dir "gone.js" = None) as ->
        by (by vm_compute).
      done.
    - assert (files demo_world !! path_join demo_dir "b.js"
              = Some (text_of "let x = 1;")) as -> by (by vm_compute).
      intros [= <-]. by vm_compute. }
  split; [exact H|].
  exact (run_without_changes demo_dir ["gone.js"; "b.js"]%string demo_world H).
Defined.

(** * More on the engine *)

(** ** A block of whole lines under one pass *)

Lemma linedel_app b u u' post post' :
  LineDel b u u' → after b u = true → LineDel true post post' →
  LineDel b (u ++ post) (u' ++ post').
Proof.
  induction 1 as [b|b c s t H IH|l s t Hl H IH]; intros Hu Hp.
  - change (b = true) in Hu. by subst b.
  - simpl. constructor. apply IH; [|done]. by rewrite <- after_cons with (b := b).
  - rewrite <- app_assoc. constructor; [done|]. apply IH; [|done].
    by rewrite <- after_app, (after_last _ _ _ Hl) in Hu.
Qed.

Lemma linedel_rest_of_line body post : nl ∉ body → ∀ t,
  LineDel false (body ++ nl :: post) t →
  ∃ post', t = body ++ nl :: post' ∧ LineDel true post post'.
Proof.
  induction body as [|c body IH]; intros Hb t H.
  - apply linedel_false_inv in H as [[? _]|(c & s' & t' & [= <- <-] & -> & H)];
      [done|]. by exists t'.
  - apply linedel_false_inv in H as [[? _]|(d & s' & t' & [= <- <-] & -> & H)];
      [done|].
    assert (is_nl c = false) as Hc.
    { apply N.eqb_neq. intros ->. apply Hb. by left. }
    rewrite Hc in H. destruct (IH ltac:(set_solver) _ H) as (post' & -> & Hp).
    by exists post'.
Qed.

(** A pass that deletes whole lines either keeps a given line, with
    whole-line deletions before and behind it, or deletes it. *)
Lemma linedel_line_kept_or_dropped body post : nl ∉ body →
  ∀ b s t, LineDel b s t →
  ∀ u, s = u ++ (body ++ [nl]) ++ post → after b u = true →
  (∃ u' post', t = u' ++ (body ++ [nl]) ++ post' ∧ LineDel b u u'
               ∧ LineDel true post post' ∧ after b u' = true)
  ∨ LineDel b (u ++ post) t.
Proof.
  intros Hb. induction 1 as [b|b c s t H IH|l s t Hl H IH]; intros u Heq Hu.
  - exfalso. destruct u; [|done]. by destruct body.
  - destruct u as [|d u].
    + left. change (b = true) in Hu. subst b. simpl in Heq.
      rewrite <- app_assoc in Heq. simpl in Heq.
      destruct body as [|e body]; injection Heq as -> ->.
      * exists [], t. simpl. repeat split; [|done..]. constructor.
      * assert (is_nl e = false) as He.
        { apply N.eqb_neq. intros ->. apply Hb. by left. }
        rewrite He in H.
        apply linedel_rest_of_line in H as (post' & -> & Hp); [|set_solver].
        exists [], post'. simpl. rewrite <- app_assoc. simpl.
        repeat split; [|done..]. constructor.
    + injection Heq as <- ->. rewrite after_cons in Hu.
      destruct (IH u eq_refl Hu) as [(u' & post' & -> & Hu' & Hp & Ha)|Hd].
      * left. exists (c :: u'), post'. rewrite after_cons.
        repeat split; [|done..]. by constructor.
      * right. simpl. by constructor.
  - apply app_eq_inv in Heq as [(k & -> & Heq)|(k & -> & ->)].
    + destruct (decide (k = [])) as [->|Hk].
      { rewrite app_nil_r in *. simpl in Heq. subst s.
        destruct (IH [] eq_refl eq_refl) as [(u' & post' & -> & Hu' & Hp & Ha)|Hd].
        - left. exists u', post'. repeat split; [|done..].
          rewrite <- (app_nil_r u). by constructor.
        - right. by constructor. }
      right. rewrite (last_app_nonempty _ _ Hk) in Hl.
      assert (u = [] ∨ last u = Some nl) as Hu'.
      { destruct (decide (u = [])) as [->|Hne]; [by left|]. right.
        apply after_true_last in Hu as [u' ->]; [|done]. apply last_snoc. }
      symmetry in Heq.
      apply app_split in Heq as [(k' & Hk' & ->)|(k2 & Hk2 & -> & <-)].
      * apply line_prefix in Hk' as [-> _]; [|done..].
        by apply linedel_drop_aligned.
      * rewrite app_assoc. apply linedel_drop_aligned; [|done]. right.
        rewrite (last_app_nonempty _ _ Hk2) in Hl.
        by rewrite (last_app_nonempty _ _ Hk2).
    + assert (after true k = true) as Hk
        by (by rewrite <- after_app, (after_last _ _ _ Hl) in Hu).
      destruct (IH k eq_refl Hk) as [(u' & post' & -> & Hu' & Hp & Ha)|Hd].
      * left. exists u', post'. repeat split; [|done..]. by constructor.
      * right. rewrite <- app_assoc. by constructor.
Qed.

Lemma line_no_end_inside r body :
  line_rule r → nl ∉ body → ¬ ends_inside r (body ++ [nl]).
Proof.
  intros Hr Hb (b & l & s & a & k & k' & M & -> & Heq & Hk & Hk').
  destruct (Hr _ _ _ M) as [_ Hl]. rewrite (last_app_nonempty _ _ Hk) in Hl.
  by apply line_prefix in Heq as [-> _].
Qed.

(** A pass of a rule that matches the block [blk] where it stands, and
    none of whose matches ends inside it, leaves nothing of the block. *)
Lemma scan_block_removed r blk post :
  line_rule r → blk ≠ [] → ¬ ends_inside r blk → Matches r true blk post →
  ∀ b s t, Scan r b s t →
  ∀ u, s = u ++ blk ++ post → after b u = true → LineDel b (u ++ post) t.
Proof.
  intros Hr Hne Hend Mhere.
  induction 1 as [b|b c s t Hno Hs IH|b l s t Hl M Hs IH]; intros u Heq Hu.
  - exfalso. destruct u; [|done]. by destruct blk.
  - destruct u as [|d u].
    + exfalso. change (b = true) in Hu. subst b. by apply (Hno blk post).
    + injection Heq as <- ->. rewrite after_cons in Hu.
      simpl. constructor. by apply IH.
  - destruct (Hr _ _ _ M) as [-> Hlast].
    rewrite (after_last _ _ _ Hlast) in *.
    apply scan_linedel in Hs as Hst; [|done].
    apply app_eq_inv in Heq as [(k & -> & Heq)|(k & -> & ->)].
    + destruct (decide (k = [])) as [->|Hk].
      { rewrite app_nil_r in *. simpl in Heq. constructor; [done|].
        by apply (IH []). }
      assert (u = [] ∨ last u = Some nl) as Hu'.
      { destruct (decide (u = [])) as [->|Hn]; [by left|]. right.
        apply after_true_last in Hu as [u' ->]; [|done]. apply last_snoc. }
      rewrite (last_app_nonempty _ _ Hk) in Hlast. symmetry in Heq.
      apply app_split in Heq as [(k' & Hk' & ->)|(k2 & Hk2 & -> & <-)].
      * destruct (decide (k' = [])) as [->|Hk'n].
        -- by apply linedel_drop_aligned.
        -- exfalso. apply Hend. by exists true, (u ++ k), (k' ++ post), u, k, k'.
      * rewrite app_assoc. apply linedel_drop_aligned; [|done]. right.
        rewrite (last_app_nonempty _ _ Hk2) in Hlast.
        by rewrite (last_app_nonempty _ _ Hk2).
    + rewrite <- app_assoc. constructor; [done|]. apply IH; [done|].
      by rewrite <- after_app, (after_last _ _ _ Hlast) in Hu.
Qed.

(** A pass of a rule none of whose matches starts or ends inside the block
    [blk] keeps the block, or deletes all of it. *)
Lemma scan_block_kept r blk :
  line_rule r → blk ≠ [] → last blk = Some nl →
  ¬ ends_inside r blk → ¬ starts_inside r blk →
  ∀ b s t, Scan r b s t →
  ∀ u post, s = u ++ blk ++ post → after b u = true →
  (∃ u' post', t = u' ++ blk ++ post' ∧ LineDel b u u'
               ∧ LineDel true post post' ∧ after b u' = true)
  ∨ LineDel b (u ++ post) t.
Proof.
  intros Hr Hne Hblk Hend Hstart.
  assert (∀ k2 k1 post b t, blk = k1 ++ k2 → k1 ≠ [] → b = after true k1 →
            Scan r b (k2 ++ post) t →
            ∃ post', t = k2 ++ post' ∧ LineDel true post post') as Hin.
  { induction k2 as [|c k2 IHk]; intros k1 post b t Hb Hk1 Hbeq Hs.
    - rewrite app_nil_r in Hb. subst k1 b. rewrite (after_last _ _ _ Hblk) in Hs.
      exists t. split; [done|]. by eapply scan_linedel.
    - simpl in Hs. remember (c :: k2 ++ post) as s eqn:Heq.
      destruct Hs as [b|b d s t Hno Hs|b l s t Hl M Hs].
      + done.
      + injection Heq as -> ->.
        destruct (IHk (k1 ++ [c]) post (is_nl c) t) as (post' & -> & Hp).
        * by rewrite <- app_assoc.
        * by destruct k1.
        * by rewrite <- after_app, after_cons.
        * done.
        * by exists post'.
      + exfalso. destruct (Hr _ _ _ M) as [Hb' _]. apply Hstart.
        exists k1, (c :: k2), l, s, post. subst b.
        split; [done|]. split; [|split; [done|]; split];
          [|by rewrite Hb' in M|done].
        apply after_true_last in Hb' as [k0 ->]; [|done].
        apply last_snoc. }
  induction 1 as [b|b c s t Hno Hs IH|b l s t Hl M Hs IH]; intros u post Heq Hu.
  - exfalso. destruct u; [|done]. by destruct blk.
  - destruct u as [|d u].
    + left. change (b = true) in Hu. subst b. simpl in Heq.
      destruct blk as [|e blk']; [done|]. injection Heq as -> ->.
      destruct (Hin blk' [e] post (is_nl e) t) as (post' & -> & Hp);
        [done..|by rewrite after_cons|done|].
      exists [], post'. repeat split; [|done..]. constructor.
    + injection Heq as <- ->. rewrite after_cons in Hu.
      destruct (IH u post eq_refl Hu) as [(u' & post' & -> & Hu' & Hp & Ha)|Hd].
      * left. exists (c :: u'), post'. rewrite after_cons.
        repeat split; [|done..]. by constructor.
      * right. simpl. by constructor.
  - destruct (Hr _ _ _ M) as [-> Hlast].
    rewrite (after_last _ _ _ Hlast) in *.
    apply scan_linedel in Hs as Hst; [|done].
    apply app_eq_inv in Heq as [(k & -> & Heq)|(k & -> & ->)].
    + destruct (decide (k = [])) as [->|Hk].
      { rewrite app_nil_r in *. simpl in Heq. subst s.
        destruct (IH [] post eq_refl eq_refl)
          as [(u' & post' & -> & Hu' & Hp & Ha)|Hd].
        - left. exists u', post'. repeat split; [|done..].
          rewrite <- (app_nil_r u). by constructor.
        - right. by constructor. }
      right.
      assert (u = [] ∨ last u = Some nl) as Hu'.
      { destruct (decide (u = [])) as [->|Hn]; [by left|]. right.
        apply after_true_last in Hu as [u' ->]; [|done]. apply last_snoc. }
      rewrite (last_app_nonempty _ _ Hk) in Hlast. symmetry in Heq.
      apply app_split in Heq as [(k' & Hk' & ->)|(k2 & Hk2 & -> & <-)].
      * destruct (decide (k' = [])) as [->|Hk'n].
        -- by apply linedel_drop_aligned.
        -- exfalso. apply Hend. by exists true, (u ++ k), (k' ++ post), u, k, k'.
      * rewrite app_assoc. apply linedel_drop_aligned; [|done]. right.
        rewrite (last_app_nonempty _ _ Hk2) in Hlast.
        by rewrite (last_app_nonempty _ _ Hk2).
    + assert (after true k = true) as Hk
        by (by rewrite <- after_app, (after_last _ _ _ Hlast) in Hu).
      destruct (IH k post eq_refl Hk) as [(u' & post' & -> & Hu' & Hp & Ha)|Hd].
      * left. exists u', post'. repeat split; [|done..]. by constructor.
      * right. rewrite <- app_assoc. by constructor.
Qed.

Lemma kept_or_gone_linedel body base s t :
  nl ∉ body → LineDel true s t →
  kept_or_gone (body ++ [nl]) base s → kept_or_gone (body ++ [nl]) base t.
Proof.
  intros Hb Hd [(u & p0 & -> & Hu & Hsub)|Hsub].
  - destruct (linedel_line_kept_or_dropped body p0 Hb _ _ _ Hd u eq_refl Hu)
      as [(u' & p' & -> & Hu' & Hp & Ha)|Hgone].
    + left. exists u', p'. split; [done|]. split; [done|].
      etrans; [|exact Hsub]. apply linedel_lines. by apply linedel_app.
    + right. etrans; [|exact Hsub]. by apply linedel_lines.
  - right. etrans; [|exact Hsub]. by apply linedel_lines.
Qed.

Lemma kept_or_gone_removed r blk base s :
  line_rule r → blk ≠ [] → ¬ ends_inside r blk →
  (∀ post, Matches r true blk post) →
  kept_or_gone blk base s → lines (re_sub r s) `sublist_of` lines base.
Proof.
  intros Hr Hne Hend Mhere [(u & p0 & -> & Hu & Hsub)|Hsub].
  - etrans; [|exact Hsub]. apply linedel_lines.
    eapply (scan_block_removed r blk p0); try done.
    apply re_sub_scan. by apply line_rule_consuming.
  - etrans; [|exact Hsub]. by apply linedel_lines, re_sub_linedel.
Qed.

Lemma kept_or_gone_start blk pre post :
  pre = [] ∨ last pre = Some nl →
  kept_or_gone blk (pre ++ post) (pre ++ blk ++ post).
Proof.
  intros Hpre. left. exists pre, post. split; [done|]. split; [|done].
  destruct Hpre as [->|Hp]; [done|]. by rewrite (after_last _ _ _ Hp).
Qed.

(** X5: a one-line cache write [setCache(...);] at the start of a line,
    with a non-empty argument text without ';', is removed wherever it
    stands and whatever follows it: the lines of the output are a
    subsequence of the lines around it.  The form with an expiry is one
    of these. *)
Theorem cache_write_line_removed pre w x w' post :
  pre = [] ∨ last pre = Some nl →
  blank w → blank w' → x ≠ [] → all_in (NoneOf (text_of ";")) x → nl ∉ x →
  lines (remove_cache_blocks
           (pre ++ (w ++ text_of "setCache(" ++ x ++ text_of ");" ++ w' ++ [nl])
                ++ post))
  `sublist_of` lines (pre ++ post).
Proof.
  intros Hpre Hw Hw' Hx Hx' Hxnl.
  set (body := w ++ text_of "setCache(" ++ x ++ text_of ");" ++ w').
  assert (nl ∉ body) as Hb.
  { unfold body. rewrite !not_elem_of_app.
    repeat split; first [by apply blank_no_nl | by apply literal_no_nl | done]. }
  replace (w ++ text_of "setCache(" ++ x ++ text_of ");" ++ w' ++ [nl])
    with (body ++ [nl]) by (unfold body; by rewrite <- !app_assoc).
  pose proof (kept_or_gone_start (body ++ [nl]) pre post Hpre) as H0.
  unfold remove_cache_blocks.
  eapply kept_or_gone_linedel in H0;
    [|done|apply (re_sub_linedel pattern1); auto with rules].
  eapply kept_or_gone_linedel in H0;
    [|done|apply (re_sub_linedel pattern2); auto with rules].
  apply (kept_or_gone_removed pattern3) in H0.
  - do 2 (etrans; [apply linedel_lines, re_sub_linedel; auto with rules|]).
    exact H0.
  - auto with rules.
  - by destruct body.
  - apply line_no_end_inside; [auto with rules | done].
  - intros p0. unfold body. rewrite <- !app_assoc.
    apply pattern3_intro; auto using blank_space.
Qed.

Lemma cache_write_line_removed_witness :
  (text_of "  const result = await load(id);" ++ [nl] = []
   ∨ last (text_of "  const result = await load(id);" ++ [nl]) = Some nl)
  ∧ blank (text_of "  ") ∧ blank [13]
  ∧ text_of "cacheKey, result, 3600" ≠ []
  ∧ all_in (NoneOf (text_of ";")) (text_of "cacheKey, result, 3600")
  ∧ (nl ∉ text_of "cacheKey, result, 3600")
  ∧ lines (remove_cache_blocks
             ((text_of "  const result = await load(id);" ++ [nl])
              ++ (text_of "  " ++ text_of "setCache("
                    ++ text_of "cacheKey, result, 3600" ++ text_of ");"
                    ++ [13] ++ [nl])
              ++ (text_of "  return result;" ++ [nl])))
    `sublist_of` lines ((text_of "  const result = await load(id);" ++ [nl])
                        ++ (text_of "  return result;" ++ [nl])).
Proof.
  assert (blank (text_of "  ")) as Hb by (by apply blank_check).
  assert (blank [13]) as Hb1 by (by apply blank_check).
  assert (text_of "cacheKey, result, 3600" ≠ []) as Hx by done.
  assert (all_in (NoneOf (text_of ";")) (text_of "cacheKey, result, 3600"))
    as Hx' by (by apply all_in_literal).
  assert (nl ∉ text_of "cacheKey, result, 3600") as Hn
    by (by apply literal_no_nl).
  repeat (split; [first [by right | assumption]|]).
  apply (cache_write_line_removed
           (text_of "  const result = await load(id);" ++ [nl]));
    first [by right | assumption].
Defined.

(** ** Texts without the names of the cache *)

Lemma text_of_nonempty a s : text_of (String a s) ≠ [].
Proof. done. Qed.

Lemma count_zero_no_infix needle s :
  needle ≠ [] → count s needle = 0%Z → ∀ a c, s ≠ a ++ needle ++ c.
Proof.
  intros Hn Hc. unfold count in Hc.
  assert (count_go needle 0 s = 0%nat) as H0 by lia. clear Hc.
  assert (occ needle s = 0%nat) as Hocc.
  { induction s as [|x s IH]; [done|]. cbn [count_go occ] in *.
    destruct (starts_with needle (x :: s)); [done|]. simpl. by apply IH. }
  intros a c ->. pose proof (occ_app_ge needle a (needle ++ c)) as Hge.
  destruct needle as [|x needle]; [done|]. cbn [app occ] in Hge.
  change ((x :: needle) ++ c) with (x :: needle ++ c) in Hocc.
  assert (starts_with (x :: needle) (x :: needle ++ c) = true) as Hs
    by (apply starts_with_true; by eexists).
  rewrite Hs in Hge. lia.
Qed.

Lemma no_infix_clean r lit content :
  (∀ b l s, Matches r b l s → ∃ a c, l = a ++ lit ++ c) →
  (∀ a c, content ≠ a ++ lit ++ c) → ∀ b, Clean r b content.
Proof.
  intros Hr Hc.
  enough (∀ sfx p b, content = p ++ sfx → Clean r b sfx) as H
    by (intros b; by apply (H content [])).
  induction sfx as [|x sfx IH]; intros p b Heq; constructor.
  - intros l s' Hl M. destruct (Hr _ _ _ M) as (a & c & ->).
    apply (Hc (p ++ a) (c ++ s')). rewrite Heq, Hl. by rewrite <- !app_assoc.
  - apply (IH (p ++ [x])). by rewrite <- app_assoc.
Qed.

Ltac has_literal a c :=
  let M := fresh "M" in
  intros ? ? ? M;
  unfold pattern1, pattern2, pattern3, pattern4, pattern_unused_key in M;
  inv_matches;
  match goal with
  | |- ∃ _ _, [] ++ ?w ++ ?lit ++ ?rest = _ =>
      exists (w ++ a), (c ++ rest); rewrite <- !app_assoc; reflexivity
  end.

Lemma pattern1_names_getCached b l s :
  Matches pattern1 b l s → ∃ a c, l = a ++ text_of "getCached(" ++ c.
Proof. revert b l s. has_literal (text_of "const cached = ") (@nil char). Qed.

Lemma pattern2_names_getCached b l s :
  Matches pattern2 b l s → ∃ a c, l = a ++ text_of "getCached(" ++ c.
Proof. revert b l s. has_literal (text_of "const cached = ") (@nil char). Qed.

Lemma pattern3_names_setCache b l s :
  Matches pattern3 b l s → ∃ a c, l = a ++ text_of "setCache(" ++ c.
Proof. revert b l s. has_literal (@nil char) (@nil char). Qed.

Lemma pattern4_names_setCache b l s :
  Matches pattern4 b l s → ∃ a c, l = a ++ text_of "setCache(" ++ c.
Proof. revert b l s. has_literal (@nil char) (@nil char). Qed.

Lemma pattern_unused_key_names_cacheKey b l s :
  Matches pattern_unused_key b l s →
  ∃ a c, l = a ++ text_of "const cacheKey = " ++ c.
Proof. revert b l s. has_literal (@nil char) (@nil char). Qed.

(** X6: a text in which [str.count] finds neither 'getCached(' nor
    'setCache(' nor 'const cacheKey = ' is returned as it is; the names
    without the parenthesis may occur in it. *)
Theorem text_without_cache_names_unchanged content :
  count content (text_of "getCached(") = 0%Z →
  count content (text_of "setCache(") = 0%Z →
  count content (text_of "const cacheKey = ") = 0%Z →
  remove_cache_blocks content = content.
Proof.
  intros Hg Hs Hk.
  pose proof (count_zero_no_infix _ _ (text_of_nonempty _ _) Hg) as Hg'.
  pose proof (count_zero_no_infix _ _ (text_of_nonempty _ _) Hs) as Hs'.
  pose proof (count_zero_no_infix _ _ (text_of_nonempty _ _) Hk) as Hk'.
  unfold remove_cache_blocks.
  rewrite (re_sub_clean pattern1);
    [|auto with rules|by apply (no_infix_clean _ _ _ pattern1_names_getCached)].
  rewrite (re_sub_clean pattern2);
    [|auto with rules|by apply (no_infix_clean _ _ _ pattern2_names_getCached)].
  rewrite (re_sub_clean pattern3);
    [|auto with rules|by apply (no_infix_clean _ _ _ pattern3_names_setCache)].
  rewrite (re_sub_clean pattern4);
    [|auto with rules|by apply (no_infix_clean _ _ _ pattern4_names_setCache)].
  apply re_sub_clean; [auto with rules|].
  by apply (no_infix_clean _ _ _ pattern_unused_key_names_cacheKey).
Qed.

Lemma text_without_cache_names_unchanged_witness :
  markers (text_of "// getCached and setCache are gone" ++ [nl]) = 2%Z
  ∧ count (text_of "// getCached and setCache are gone" ++ [nl])
      (text_of "getCached(") = 0%Z
  ∧ count (text_of "// getCached and setCache are gone" ++ [nl])
      (text_of "setCache(") = 0%Z
  ∧ count (text_of "// getCached and setCache are gone" ++ [nl])
      (text_of "const cacheKey = ") = 0%Z
  ∧ remove_cache_blocks (text_of "// getCached and setCache are gone" ++ [nl])
    = text_of "// getCached and setCache are gone" ++ [nl].
Proof.
  assert (count (text_of "// getCached and setCache are gone" ++ [nl])
            (text_of "getCached(") = 0%Z) as H1 by (by vm_compute).
  assert (count (text_of "// getCached and setCache are gone" ++ [nl])
            (text_of "setCache(") = 0%Z) as H2 by (by vm_compute).
  assert (count (text_of "// getCached and setCache are gone" ++ [nl])
            (text_of "const cacheKey = ") = 0%Z) as H3 by (by vm_compute).
  split; [by vm_compute|]. split; [exact H1|]. split; [exact H2|].
  split; [exact H3|].
  exact (text_without_cache_names_unchanged _ H1 H2 H3).
Defined.

(** ** Rule 2 *)

Lemma kept_or_gone_kept r blk base s :
  line_rule r → blk ≠ [] → last blk = Some nl →
  ¬ ends_inside r blk → ¬ starts_inside r blk →
  kept_or_gone blk base s → kept_or_gone blk base (re_sub r s).
Proof.
  intros Hr Hne Hl Hend Hstart [(u & p0 & -> & Hu & Hsub)|Hsub].
  - destruct (scan_block_kept r blk Hr Hne Hl Hend Hstart true _ _
                (re_sub_scan r _ (line_rule_consuming _ Hr)) u p0 eq_refl Hu)
      as [(u' & p' & -> & Hu' & Hp & Ha)|Hgone].
    + left. exists u', p'. split; [done|]. split; [done|].
      etrans; [|exact Hsub]. apply linedel_lines. by apply linedel_app.
    + right. etrans; [|exact Hsub]. by apply linedel_lines.
  - right. etrans; [|exact Hsub]. by apply linedel_lines, re_sub_linedel.
Qed.

Lemma line_step body rest (k k' : text) :
  nl ∉ body → last k = Some nl → (body ++ [nl]) ++ rest = k ++ k' →
  k = body ++ [nl]
  ∨ ∃ k2, last k2 = Some nl ∧ k = (body ++ [nl]) ++ k2 ∧ rest = k2 ++ k'.
Proof.
  intros Hb Hk Heq. symmetry in Heq.
  apply app_split in Heq as [(k0 & Hk0 & _)|(k2 & Hk2 & -> & <-)].
  - left. by apply line_prefix in Hk0 as [_ ->].
  - right. exists k2. by rewrite (last_app_nonempty _ _ Hk2) in Hk.
Qed.

(** Where a block of four lines can be cut behind a line break. *)
Lemma block_cut b1 b2 b3 b4 (k k' : text) :
  nl ∉ b1 → nl ∉ b2 → nl ∉ b3 → nl ∉ b4 → last k = Some nl →
  (b1 ++ [nl]) ++ (b2 ++ [nl]) ++ (b3 ++ [nl]) ++ (b4 ++ [nl]) = k ++ k' →
  k = b1 ++ [nl] ∨ k = (b1 ++ [nl]) ++ (b2 ++ [nl])
  ∨ k = (b1 ++ [nl]) ++ (b2 ++ [nl]) ++ (b3 ++ [nl]) ∨ k' = [].
Proof.
  intros H1 H2 H3 H4 Hk Heq.
  destruct (line_step _ _ _ _ H1 Hk Heq) as [->|(k2 & Hk2 & -> & Heq2)];
    [by left|].
  destruct (line_step _ _ _ _ H2 Hk2 Heq2) as [->|(k3 & Hk3 & -> & Heq3)];
    [by right; left|].
  destruct (line_step _ _ _ _ H3 Hk3 Heq3) as [->|(k4 & Hk4 & -> & Heq4)];
    [by right; right; left|].
  right; right; right. rewrite <- (app_nil_r (b4 ++ [nl])) in Heq4.
  destruct (line_step _ _ _ _ H4 Hk4 Heq4) as [->|(k5 & Hk5 & -> & Heq5)].
  - by apply app_inv_head in Heq4.
  - symmetry in Heq5. by apply app_eq_nil in Heq5 as [-> _].
Qed.

Lemma end_clash (a a' w w' : text) c c' :
  all_in Space w → all_in Space w' → is_space c = false → is_space c' = false →
  c ≠ c' → a ++ c :: w ++ [nl] = a' ++ c' :: w' ++ [nl] → False.
Proof.
  intros Hw Hw' Hc Hc' Hne Heq.
  assert ((a ++ c :: w) ++ [nl] = (a' ++ c' :: w') ++ [nl]) as H
    by (rewrite <- !app_assoc; exact Heq).
  apply app_inj_tail in H as [H _].
  by apply space_suffix_unique in H as (_ & ? & _).
Qed.

Lemma first_char_clash (w w' a a' : text) c c' :
  all_in Space w → all_in Space w' → is_space c = false → is_space c' = false →
  c ≠ c' → w ++ c :: a = w' ++ c' :: a' → False.
Proof.
  intros Hw Hw' Hc Hc' Hne Heq.
  by apply (class_prefix_unique Space) in Heq as (_ & ? & _).
Qed.

Lemma blank_tail_clash (a b w : text) :
  all_in Space w → a ++ [41; 32] = (b ++ [nl]) ++ w → False.
Proof.
  intros Hw Heq. change [41; 32] with ([41] ++ [32]) in Heq.
  rewrite app_assoc in Heq.
  destruct w as [|c w _] using rev_ind.
  { rewrite app_nil_r in Heq. by apply app_inj_tail in Heq as [_ [=]]. }
  apply Forall_app in Hw as [Hw _]. rewrite app_assoc in Heq.
  apply app_inj_tail in Heq as [Heq _].
  destruct w as [|d w _] using rev_ind.
  { rewrite app_nil_r in Heq. by apply app_inj_tail in Heq as [_ [=]]. }
  apply Forall_app in Hw as [_ Hd]. inversion_clear Hd as [|? ? Hd' _].
  rewrite app_assoc in Heq. apply app_inj_tail in Heq as [_ <-].
  by vm_compute in Hd'.
Qed.

Lemma pattern2_inv b l s :
  Matches pattern2 b l s →
  b = true ∧ ∃ v1 y v2 v3 v4 v5 v6 v7 v8,
    l = v1 ++ text_of "const cached = getCached(" ++ y ++ text_of ");"
           ++ v2 ++ [nl] ++ v3 ++ text_of "if (cached) {"
           ++ v4 ++ [nl] ++ v5 ++ text_of "return cached;"
           ++ v6 ++ [nl] ++ v7 ++ text_of "}" ++ v8 ++ [nl] ∧
    all_in Space v1 ∧ all_in Space v8.
Proof.
  intros M. unfold pattern2 in M. inv_matches. split; [done|].
  by eexists _, _, _, _, _, _, _, _, _.
Qed.

Lemma pattern2_intro w1 x w2 w3 w4 w5 w6 w7 w8 s :
  all_in Space w1 → x ≠ [] → all_in (NoneOf (text_of ")")) x →
  all_in Space w2 → all_in Space w3 → all_in Space w4 → all_in Space w5 →
  all_in Space w6 → all_in Space w7 → all_in Space w8 →
  Matches pattern2 true
    (w1 ++ text_of "const cached = getCached(" ++ x ++ text_of ");"
        ++ w2 ++ [nl] ++ w3 ++ text_of "if (cached) {"
        ++ w4 ++ [nl] ++ w5 ++ text_of "return cached;"
        ++ w6 ++ [nl] ++ w7 ++ text_of "}" ++ w8 ++ [nl]) s.
Proof.
  intros. unfold pattern2.
  eapply (MSeq' _ _ _ []); [reflexivity | constructor |].
  do 16 (apply MSeq; [by constructor|]).
  apply MSeq; by constructor.
Qed.

Section BlockForm.
Variables w1 x w2 w3 w4 w5 w6 w7 w8 : text.
Hypothesis Hw1 : blank w1.
Hypothesis Hw2 : blank w2.
Hypothesis Hw3 : blank w3.
Hypothesis Hw4 : blank w4.
Hypothesis Hw5 : blank w5.
Hypothesis Hw6 : blank w6.
Hypothesis Hw7 : blank w7.
Hypothesis Hw8 : blank w8.
Hypothesis Hx : x ≠ [].
Hypothesis Hx' : all_in (NoneOf (text_of ")")) x.
Hypothesis Hxnl : nl ∉ x.

Local Abbreviation b1 := (lookup_body w1 x w2).
Local Abbreviation b2 := (guard_open_body w3 w4).
Local Abbreviation b3 := (guard_return_body w5 w6).
Local Abbreviation b4 := (guard_close_body w7 w8).
Local Abbreviation blk := (block_form w1 x w2 w3 w4 w5 w6 w7 w8).

Lemma lookup_body_no_nl : nl ∉ b1.
Proof.
  unfold lookup_body. rewrite !not_elem_of_app.
  repeat split; first [by apply blank_no_nl | by apply literal_no_nl | done].
Qed.

Lemma guard_open_body_no_nl : nl ∉ b2.
Proof.
  unfold guard_open_body. rewrite !not_elem_of_app.
  repeat split; first [by apply blank_no_nl | by apply literal_no_nl].
Qed.

Lemma guard_return_body_no_nl : nl ∉ b3.
Proof.
  unfold guard_return_body. rewrite !not_elem_of_app.
  repeat split; first [by apply blank_no_nl | by apply literal_no_nl].
Qed.

Lemma guard_close_body_no_nl : nl ∉ b4.
Proof.
  unfold guard_close_body. rewrite !not_elem_of_app.
  repeat split; first [by apply blank_no_nl | by apply literal_no_nl].
Qed.

Lemma block_form_cut (k k' : text) :
  last k = Some nl → blk = k ++ k' →
  k = b1 ++ [nl] ∨ k = (b1 ++ [nl]) ++ (b2 ++ [nl])
  ∨ k = (b1 ++ [nl]) ++ (b2 ++ [nl]) ++ (b3 ++ [nl]) ∨ k' = [].
Proof.
  apply block_cut; auto using lookup_body_no_nl, guard_open_body_no_nl,
    guard_return_body_no_nl, guard_close_body_no_nl.
Qed.

Lemma block_form_matches post : Matches pattern2 true blk post.
Proof.
  unfold block_form, lookup_body, guard_open_body, guard_return_body,
    guard_close_body.
  rewrite <- !app_assoc. apply pattern2_intro; auto using blank_space.
Qed.

(** No match of rule 2 ends inside the block: a match ends with "}" and
    white space, the first three lines with ";", "{" and ";". *)
Lemma pattern2_not_ends_inside : ¬ ends_inside pattern2 blk.
Proof.
  intros (b & l & s & a & k & k' & M & -> & Heq & Hk & Hk').
  destruct (pattern2_line_rule _ _ _ M) as [_ Hl].
  rewrite (last_app_nonempty _ _ Hk) in Hl.
  apply pattern2_inv in M
    as (_ & v1 & y & v2 & v3 & v4 & v5 & v6 & v7 & v8 & M & _ & Hv8).
  destruct (block_form_cut _ _ Hl Heq) as [-> | [-> | [-> | ->]]]; [| | |done].
  - apply (end_clash
             (v1 ++ text_of "const cached = getCached(" ++ y ++ text_of ");"
                 ++ v2 ++ [nl] ++ v3 ++ text_of "if (cached) {"
                 ++ v4 ++ [nl] ++ v5 ++ text_of "return cached;"
                 ++ v6 ++ [nl] ++ v7)
             (a ++ w1 ++ text_of "const cached = getCached(" ++ x ++ [41])
             v8 w2 125 59); auto using blank_space.
    unfold lookup_body in M. rewrite <- ?app_assoc in M. rewrite <- !app_assoc.
    symmetry. exact M.
  - apply (end_clash
             (v1 ++ text_of "const cached = getCached(" ++ y ++ text_of ");"
                 ++ v2 ++ [nl] ++ v3 ++ text_of "if (cached) {"
                 ++ v4 ++ [nl] ++ v5 ++ text_of "return cached;"
                 ++ v6 ++ [nl] ++ v7)
             (a ++ (b1 ++ [nl]) ++ w3 ++ text_of "if (cached) ")
             v8 w4 125 123); auto using blank_space.
    unfold guard_open_body in M. rewrite <- ?app_assoc in M. rewrite <- !app_assoc.
    symmetry. exact M.
  - apply (end_clash
             (v1 ++ text_of "const cached = getCached(" ++ y ++ text_of ");"
                 ++ v2 ++ [nl] ++ v3 ++ text_of "if (cached) {"
                 ++ v4 ++ [nl] ++ v5 ++ text_of "return cached;"
                 ++ v6 ++ [nl] ++ v7)
             (a ++ (b1 ++ [nl]) ++ (b2 ++ [nl]) ++ w5 ++ text_of "return cached")
             v8 w6 125 59); auto using blank_space.
    unfold guard_return_body in M. rewrite <- ?app_assoc in M. rewrite <- !app_assoc.
    symmetry. exact M.
Qed.

(** No match of rule 1 ends inside the block: a match ends with
    "if (cached) return cached;" and white space. *)
Lemma pattern1_not_ends_inside : ¬ ends_inside pattern1 blk.
Proof.
  intros (b & l & s & a & k & k' & M & -> & Heq & Hk & Hk').
  destruct (pattern1_line_rule _ _ _ M) as [_ Hl].
  rewrite (last_app_nonempty _ _ Hk) in Hl.
  destruct (block_form_cut _ _ Hl Heq) as [-> | [-> | [-> | ->]]]; [| | |done].
  - apply (pattern1_not_lookup_end _ _ _ a w1 x w2 M (blank_space _ Hw2)).
    unfold lookup_body. by rewrite <- !app_assoc.
  - apply pattern1_inv in M
      as (_ & v1 & y & v2 & v3 & v4 & M & _ & _ & _ & _ & _ & Hv4).
    apply (end_clash
             (v1 ++ text_of "const cached = getCached(" ++ y ++ text_of ");"
                 ++ v2 ++ [nl] ++ v3 ++ text_of "if (cached) return cached")
             (a ++ (b1 ++ [nl]) ++ w3 ++ text_of "if (cached) ")
             v4 w4 59 123); auto using blank_space.
    unfold guard_open_body in M. rewrite <- ?app_assoc in M.
    rewrite <- !app_assoc. symmetry. exact M.
  - apply pattern1_inv in M
      as (_ & v1 & y & v2 & v3 & v4 & M & _ & _ & _ & _ & _ & Hv4).
    assert (((v1 ++ text_of "const cached = getCached(" ++ y ++ text_of ");"
                 ++ v2 ++ [nl] ++ v3 ++ text_of "if (cached")
              ++ [41; 32]) ++ text_of "return cached"
            = (((a ++ (b1 ++ [nl]) ++ b2) ++ [nl]) ++ w5)
              ++ text_of "return cached") as H.
    { assert ((((v1 ++ text_of "const cached = getCached(" ++ y ++ text_of ");"
                    ++ v2 ++ [nl] ++ v3 ++ text_of "if (cached")
                 ++ [41; 32]) ++ text_of "return cached") ++ 59 :: v4
              = ((((a ++ (b1 ++ [nl]) ++ b2) ++ [nl]) ++ w5)
                 ++ text_of "return cached") ++ 59 :: w6) as H.
      { apply (app_inj_tail _ _ nl nl). unfold guard_return_body in M.
        rewrite <- ?app_assoc in M. rewrite <- !app_assoc.
        symmetry. exact M. }
      by apply space_suffix_unique in H as (? & _ & _); auto using blank_space. }
    apply app_inv_tail in H.
    by apply blank_tail_clash in H; auto using blank_space.
Qed.

(** No match of rule 1 starts at the second, third or fourth line of the
    block: these lines begin with "if", "return" and "}". *)
Lemma pattern1_not_starts_inside : ¬ starts_inside pattern1 blk.
Proof.
  intros (k1 & k2 & l & s & post & Heq & Hk1 & Hk2 & M & Hl).
  apply pattern1_inv in M
    as (_ & v1 & y & v2 & v3 & v4 & -> & Hv1 & _).
  change (text_of "const cached = getCached(")
    with (99 :: text_of "onst cached = getCached(") in Hl.
  rewrite <- !app_assoc in Hl.
  destruct (block_form_cut _ _ Hk1 Heq) as [-> | [-> | [-> | ->]]]; [| | |done];
    unfold block_form in Heq; rewrite <- ?app_assoc in Heq;
    repeat apply app_inv_head in Heq; subst k2.
  - unfold guard_open_body in Hl.
    change (text_of "if (cached) {") with (105 :: text_of "f (cached) {") in Hl.
    rewrite <- !app_assoc in Hl.
    by apply first_char_clash in Hl; auto using blank_space.
  - unfold guard_return_body in Hl.
    change (text_of "return cached;") with (114 :: text_of "eturn cached;") in Hl.
    rewrite <- !app_assoc in Hl.
    by apply first_char_clash in Hl; auto using blank_space.
  - unfold guard_close_body in Hl.
    change (text_of "}") with [125] in Hl.
    rewrite <- !app_assoc in Hl.
    by apply first_char_clash in Hl; auto using blank_space.
Qed.

(** X7: a lookup line directly followed by its guard in block form (the
    condition line, the return line, the closing brace), at the start of a
    line anywhere in the text: the lines of the output are a subsequence of
    the lines around the four, so all four are removed. *)
Theorem guarded_lookup_block_removed pre post :
  pre = [] ∨ last pre = Some nl →
  lines (remove_cache_blocks
           (pre ++ block_form w1 x w2 w3 w4 w5 w6 w7 w8 ++ post))
  `sublist_of` lines (pre ++ post).
Proof.
  intros Hpre.
  assert (blk ≠ []) as Hne.
  { unfold block_form. by destruct (lookup_body w1 x w2). }
  assert (last blk = Some nl) as Hlast.
  { unfold block_form. rewrite !app_assoc. apply last_snoc. }
  pose proof (kept_or_gone_start blk pre post Hpre) as H0.
  unfold remove_cache_blocks.
  apply (kept_or_gone_kept pattern1) in H0;
    [|auto using pattern1_line_rule, pattern1_not_ends_inside,
        pattern1_not_starts_inside..].
  apply (kept_or_gone_removed pattern2) in H0;
    [|auto using pattern2_line_rule, pattern2_not_ends_inside,
        block_form_matches..].
  do 3 (etrans; [apply linedel_lines, re_sub_linedel; auto with rules|]).
  exact H0.
Qed.
End BlockForm.

Lemma guarded_lookup_block_removed_witness :
  blank (text_of "  ") ∧ blank [] ∧ blank (text_of "    ")
  ∧ text_of "cacheKey" ≠ []
  ∧ all_in (NoneOf (text_of ")")) (text_of "cacheKey")
  ∧ (nl ∉ text_of "cacheKey")
  ∧ (text_of "async function find(id) {" ++ [nl] = []
     ∨ last (text_of "async function find(id) {" ++ [nl]) = Some nl)
  ∧ lines (remove_cache_blocks
             ((text_of "async function find(id) {" ++ [nl])
              ++ block_form (text_of "  ") (text_of "cacheKey") []
                   (text_of "  ") [] (text_of "    ") [] (text_of "  ") []
              ++ (text_of "  return fetch(id);" ++ [nl])))
    `sublist_of` lines ((text_of "async function find(id) {" ++ [nl])
                        ++ (text_of "  return fetch(id);" ++ [nl])).
Proof.
  assert (blank (text_of "  ")) as Hb by (by apply blank_check).
  assert (blank []) as Hb0 by constructor.
  assert (blank (text_of "    ")) as Hb4 by (by apply blank_check).
  assert (text_of "cacheKey" ≠ []) as Hx by done.
  assert (all_in (NoneOf (text_of ")")) (text_of "cacheKey")) as Hx'
    by (by apply all_in_literal).
  assert (nl ∉ text_of "cacheKey") as Hn by (by apply literal_no_nl).
  repeat (split; [first [by right | assumption]|]).
  apply (guarded_lookup_block_removed (text_of "  ") (text_of "cacheKey") []
           (text_of "  ") [] (text_of "    ") [] (text_of "  ") []
           Hb Hb0 Hb Hb0 Hb4 Hb0 Hb Hb0 Hx Hx' Hn
           (text_of "async function find(id) {" ++ [nl])
           (text_of "  return fetch(id);" ++ [nl])).
  by right.
Defined.

Example block_form_text :
  block_form (text_of "  ") (text_of "cacheKey") []
    (text_of "  ") [] (text_of "    ") [] (text_of "  ") []
  ++ text_of "  return fetch(id);" ++ [nl]
  = block_guard.
Proof. by vm_compute. Qed.

(** ** Rule 3 on a call with blank lines in front or over several lines *)

(** A pass removes a block that it matches where the block stands, when
    what is left of the block behind a match that ends inside it is again
    such a block. *)
Lemma scan_block_removed_inv r (I : text → Prop) post :
  line_rule r →
  (∀ cur, I cur → cur ≠ [] ∧ Matches r true cur post) →
  (∀ cur b l s a k k', I cur → Matches r b l s → l = a ++ k → cur = k ++ k' →
     k ≠ [] → k' ≠ [] → I k') →
  ∀ b s t, Scan r b s t →
  ∀ u cur, I cur → s = u ++ cur ++ post → after b u = true →
  LineDel b (u ++ post) t.
Proof.
  intros Hr HI Hcut.
  induction 1 as [b|b c s t Hno Hs IH|b l s t Hl M Hs IH];
    intros u cur Hcur Heq Hu.
  - exfalso. destruct (HI _ Hcur) as [Hne _].
    destruct u; [|done]. by destruct cur.
  - destruct u as [|d u].
    + exfalso. change (b = true) in Hu. subst b.
      destruct (HI _ Hcur) as [_ Mhere]. by apply (Hno cur post).
    + injection Heq as <- ->. rewrite after_cons in Hu.
      simpl. constructor. by apply (IH u cur).
  - destruct (Hr _ _ _ M) as [-> Hlast].
    rewrite (after_last _ _ _ Hlast) in *.
    apply scan_linedel in Hs as Hst; [|done].
    apply app_eq_inv in Heq as [(k & -> & Heq)|(k & -> & ->)].
    + destruct (decide (k = [])) as [->|Hk].
      { rewrite app_nil_r in *. simpl in Heq. constructor; [done|].
        by apply (IH [] cur). }
      assert (u = [] ∨ last u = Some nl) as Hu'.
      { destruct (decide (u = [])) as [->|Hn]; [by left|]. right.
        apply after_true_last in Hu as [u' ->]; [|done]. apply last_snoc. }
      rewrite (last_app_nonempty _ _ Hk) in Hlast. symmetry in Heq.
      apply app_split in Heq as [(k' & Hk' & ->)|(k2 & Hk2 & -> & <-)].
      * destruct (decide (k' = [])) as [->|Hk'n].
        -- by apply linedel_drop_aligned.
        -- apply linedel_drop_aligned; [done|]. apply (IH [] k'); [|done..].
           by apply (Hcut cur true (u ++ k) (k' ++ post) u k k').
      * rewrite app_assoc. apply linedel_drop_aligned; [|done]. right.
        rewrite (last_app_nonempty _ _ Hk2) in Hlast.
        by rewrite (last_app_nonempty _ _ Hk2).
    + rewrite <- app_assoc. constructor; [done|]. apply (IH k cur); [done..|].
      by rewrite <- after_app, (after_last _ _ _ Hlast) in Hu.
Qed.

Lemma all_space_suffix (a k w : text) c :
  all_in Space w → a ++ k = c :: w ++ [nl] → a ≠ [] → all_in Space k.
Proof.
  intros Hw Heq Ha. destruct a as [|d a]; [done|]. injection Heq as -> Heq.
  assert (all_in Space (w ++ [nl])) as Hall.
  { apply Forall_app. split; [done|]. by repeat constructor. }
  rewrite <- Heq in Hall. by apply Forall_app in Hall as [_ ?].
Qed.

(** What a match of rule 3 leaves of a cache write when it ends inside it
    is white space in front of the same call. *)
Lemma write_call_cut w' cur b l s (a k k' : text) :
  blank w' → is_write_call w' cur → Matches pattern3 b l s →
  l = a ++ k → cur = k ++ k' → k ≠ [] → k' ≠ [] → is_write_call w' k'.
Proof.
  intros Hw' (ws & x & -> & Hws & Hx & Hx') M -> Heq Hk Hk'.
  destruct (pattern3_line_rule _ _ _ M) as [_ Hlast].
  rewrite (last_app_nonempty _ _ Hk) in Hlast.
  apply pattern3_inv in M as (_ & v & y & v' & M & Hv & Hy & Hy' & Hv').
  unfold write_call in Heq.
  assert ((ws ++ text_of "setCache(" ++ x ++ [41]) ++ 59 :: w' ++ [nl]
          = k ++ k') as Hcur by (rewrite <- !app_assoc; exact Heq).
  assert (all_in (NoneOf (text_of ";"))
            (ws ++ text_of "setCache(" ++ x ++ [41])) as HP.
  { repeat apply all_in_app; try done;
      first [by apply space_no_semicolon | by apply all_in_literal]. }
  symmetry in Hcur.
  apply app_split in Hcur as [(k0 & HP' & ->)|(k1 & Hk1 & -> & Hcur)].
  - (* the match ends in front of the ';' of the call *)
    assert (all_in Space k) as Hks.
    { assert (a ++ k
              = (v ++ text_of "setCache(" ++ y ++ [41]) ++ 59 :: v' ++ [nl])
        as Hl by (rewrite <- !app_assoc; exact M).
      apply app_split in Hl as [(q0 & HQ & ->)|(a0 & Ha0 & -> & Hl)].
      - exfalso. rewrite HP' in HP. apply Forall_app in HP as [HP _].
        apply Forall_app in HP as [_ HP]. by inversion_clear HP.
      - by eapply all_space_suffix. }
    change (text_of "setCache(") with (115 :: text_of "etCache(") in HP'.
    symmetry in HP'.
    apply app_split in HP' as [(ws2 & -> & ->)|(k3 & Hk3 & -> & HP')].
    + exists ws2, x. apply Forall_app in Hws as [_ Hws2].
      split; [|done]. unfold write_call.
      change (text_of "setCache(") with (115 :: text_of "etCache(").
      by rewrite <- !app_assoc.
    + exfalso. destruct k3 as [|e k3]; [done|]. injection HP' as -> _.
      apply Forall_app in Hks as [_ Hks]. by inversion_clear Hks.
  - (* the match ends behind the ';' of the call *)
    exfalso. destruct k1 as [|e k2]; [done|]. injection Hcur as -> Hcur.
    destruct (decide (k2 = [])) as [->|Hk2].
    { rewrite last_snoc in Hlast. by injection Hlast. }
    rewrite (last_app_nonempty _ (59 :: k2)) in Hlast by done.
    rewrite last_cons in Hlast.
    destruct (last k2) as [z|] eqn:E; [|by apply last_None in E].
    injection Hlast as ->. apply last_Some_elem_of in E.
    apply app_split in Hcur as [(w2 & -> & _)|(k3 & Hk3 & -> & Hcur)].
    + apply (blank_no_nl _ Hw'). apply elem_of_app. by left.
    + destruct k3 as [|z k3]; [done|]. injection Hcur as _ Hcur.
      by apply app_eq_nil in Hcur as [_ ->].
Qed.

(** X8: rule 3 removes a cache write together with the white space in
    front of it back to a line start, blank lines included, also when its
    argument text runs over several lines. *)
Theorem rule3_removes_call_with_blank_lines pre ws x w' post :
  pre = [] ∨ last pre = Some nl →
  all_in Space ws → x ≠ [] → all_in (NoneOf (text_of ";")) x → blank w' →
  lines (re_sub pattern3 (pre ++ write_call ws x w' ++ post))
  `sublist_of` lines (pre ++ post).
Proof.
  intros Hpre Hws Hx Hx' Hw'. apply linedel_lines.
  apply (scan_block_removed_inv pattern3 (is_write_call w') post
           pattern3_line_rule) with (u := pre) (cur := write_call ws x w')
           (s := pre ++ write_call ws x w' ++ post).
  - intros cur (ws0 & x0 & -> & H1 & H2 & H3). split.
    + unfold write_call. destruct ws0; [|done].
      by change (text_of "setCache(") with (115 :: text_of "etCache(").
    + apply pattern3_intro; auto using blank_space.
  - intros cur b l s a k k' Hcur M Hl Hc Hk Hk'.
    by apply (write_call_cut w' cur b l s a k k').
  - apply re_sub_scan. auto with rules.
  - by exists ws, x.
  - done.
  - destruct Hpre as [->|Hp]; [done|]. by rewrite (after_last _ _ _ Hp).
Qed.

Lemma rule3_removes_call_with_blank_lines_witness :
  (text_of "  const result = await load(id);" ++ [nl] = []
   ∨ last (text_of "  const result = await load(id);" ++ [nl]) = Some nl)
  ∧ all_in Space ([nl; nl] ++ text_of "  ")
  ∧ text_of "cacheKey," ++ [nl] ++ text_of "    result" ≠ []
  ∧ all_in (NoneOf (text_of ";"))
      (text_of "cacheKey," ++ [nl] ++ text_of "    result")
  ∧ blank []
  ∧ lines (re_sub pattern3
             ((text_of "  const result = await load(id);" ++ [nl])
              ++ write_call ([nl; nl] ++ text_of "  ")
                   (text_of "cacheKey," ++ [nl] ++ text_of "    result") []
              ++ (text_of "  return result;" ++ [nl])))
    `sublist_of` lines ((text_of "  const result = await load(id);" ++ [nl])
                        ++ (text_of "  return result;" ++ [nl])).
Proof.
  assert (all_in Space ([nl; nl] ++ text_of "  ")) as Hws
    by (by apply all_in_literal).
  assert (text_of "cacheKey," ++ [nl] ++ text_of "    result" ≠ []) as Hx by done.
  assert (all_in (NoneOf (text_of ";"))
            (text_of "cacheKey," ++ [nl] ++ text_of "    result")) as Hx'
    by (by apply all_in_literal).
  assert (blank []) as Hb0 by constructor.
  repeat (split; [first [by right | assumption]|]).
  apply (rule3_removes_call_with_blank_lines
           (text_of "  const result = await load(id);" ++ [nl]));
    first [by right | assumption].
Defined.

(** * The orphaned key rule, anywhere in a text *)

(** A pass over a stretch [u] of the text in which every match that starts
    ends: the stretch comes out with whole lines deleted, and the pass goes
    on behind it. *)
Lemma sub_go_prefix r rest : line_rule r → ∀ u b,
  (∀ u1 u2 l s', u = u1 ++ u2 → Matches r (after b u1) l s' →
     u2 ++ rest = l ++ s' → ∃ k, u2 = l ++ k) →
  ∃ u', sub_go r 0 b (u ++ rest) = u' ++ sub_go r 0 (after b u) rest
        ∧ LineDel b u u'.
Proof.
  intros Hr u. remember (length u) as n eqn:Hn. revert u Hn.
  induction n as [n IH] using lt_wf_ind. intros [|c u] Hn b Hin.
  { exists []. split; [done|constructor]. }
  destruct (match_at r b ((c :: u) ++ rest)) as [[b' s']|] eqn:E.
  - destruct (match_at_sound _ _ _ _ _ E) as (l & Hl & M & ->).
    destruct (Hin [] (c :: u) l s' eq_refl M Hl) as [k Hk].
    assert (s' = k ++ rest) as ->.
    { rewrite Hk, <- app_assoc in Hl. by apply app_inv_head in Hl. }
    assert (l ≠ []) as Hne by (intros ->; by apply (line_rule_consuming r Hr) in M).
    destruct (Hr _ _ _ M) as [-> Hlast].
    rewrite Hk, <- app_assoc in E |- *.
    rewrite (sub_go_drop _ _ _ _ _ Hne E).
    destruct (IH (length k)) with (u := k) (b := after true l)
      as (u' & Heq & Hd); [|done| |].
    + subst n. rewrite Hk, length_app. destruct l; [done|]. simpl. lia.
    + intros k1 k2 l0 s0 -> M0 Heq0. rewrite after_app in M0.
      apply (Hin (l ++ k1) k2 l0 s0); [|done..].
      by rewrite Hk, <- app_assoc.
    + exists u'. rewrite after_app in Heq. split; [done|].
      rewrite (after_last _ _ _ Hlast) in Hd. by constructor.
  - change ((c :: u) ++ rest) with (c :: (u ++ rest)) in *.
    rewrite (sub_go_copy _ _ _ _ E).
    destruct (IH (length u)) with (u := u) (b := is_nl c)
      as (u' & Heq & Hd); [|done| |].
    + subst n. simpl. lia.
    + intros u1 u2 l s' -> M Heq. rewrite <- after_cons with (b := b) in M.
      by apply (Hin (c :: u1) u2 l s').
    + exists (c :: u'). rewrite Heq, after_cons. split; [done|]. by constructor.
Qed.

(** Texts that agree behind a ';', one with no ';' in front of it and the
    other with white space only behind it, agree on both sides of it. *)
Lemma semicolon_unique (p r q r' : text) :
  all_in (NoneOf (text_of ";")) q → all_in Space r' →
  p ++ 59 :: r = q ++ 59 :: r' → p = q ∧ r = r'.
Proof.
  intros Hq Hr' [(k & -> & Heq)|(k & Hk & -> & Heq)]%app_split.
  - destruct k as [|c k].
    + rewrite app_nil_r. by injection Heq as ->.
    + exfalso. injection Heq as <- _.
      apply Forall_app in Hq as [_ Hq]. by inversion_clear Hq.
  - exfalso. destruct k as [|c k]; [done|]. injection Heq as -> <-.
    apply Forall_app in Hr' as [_ Hr']. by inversion_clear Hr'.
Qed.

Section UnusedKey.
Variables w x w' : text.
Hypothesis Hw : blank w.
Hypothesis Hw' : blank w'.
Hypothesis Hx : x ≠ [].
Hypothesis Hxnl : nl ∉ x.

Local Abbreviation body := (key_decl_body w x w').

Lemma decl_body_no_nl : nl ∉ body.
Proof.
  unfold key_decl_body. rewrite !not_elem_of_app.
  repeat split; first [by apply blank_no_nl | by apply literal_no_nl | done].
Qed.

Lemma decl_matches next :
  all_in (NoneOf (text_of ";")) x → log_or_try_follows next = true →
  Matches pattern_unused_key true (body ++ [nl]) next.
Proof.
  intros Hx' H. unfold key_decl_body. rewrite <- !app_assoc.
  apply pattern_unused_key_intro; auto using blank_space.
Qed.

(** A match that reaches into the declaration reads all of it, and only
    white space behind it: the expression holds no ';', and "log." or
    "try" follows the declaration behind white space. *)
Lemma decl_overlap_inv b l s (a k next : text) :
  Matches pattern_unused_key b l s → l = a ++ k → k ≠ [] →
  k ++ s = (body ++ [nl]) ++ next →
  all_in (NoneOf (text_of ";")) x ∧ log_or_try_follows next = true.
Proof.
  intros M -> Hk Heq.
  destruct (pattern_unused_key_line_rule _ _ _ M) as [_ Hlast].
  rewrite (last_app_nonempty _ _ Hk) in Hlast.
  apply pattern_unused_key_inv
    in M as (_ & v & y & v' & M & Hv & Hy & Hy' & Hv' & Hs).
  assert (∃ k3, k = (body ++ [nl]) ++ k3 ∧ next = k3 ++ s) as (k3 & -> & ->).
  { apply app_split in Heq as [(k3 & Hb & ->)|(k3 & _ & -> & <-)].
    - apply (line_prefix _ _ _ decl_body_no_nl Hlast) in Hb as [-> ->].
      exists []. by rewrite app_nil_r.
    - by exists k3. }
  unfold key_decl_body in M.
  assert ((a ++ w ++ text_of "const cacheKey = " ++ x) ++ 59 :: w' ++ [nl] ++ k3
          = (v ++ text_of "const cacheKey = " ++ y) ++ 59 :: v' ++ [nl]) as M'
    by (rewrite <- !app_assoc in M |- *; exact M).
  apply semicolon_unique in M' as [HP HR].
  - split.
    + assert (all_in (NoneOf (text_of ";"))
                (a ++ w ++ text_of "const cacheKey = " ++ x)) as Hall.
      { rewrite HP. repeat apply all_in_app; try done;
          first [by apply space_no_semicolon | by apply all_in_literal]. }
      apply Forall_app in Hall as [_ Hall].
      apply Forall_app in Hall as [_ Hall].
      by apply Forall_app in Hall as [_ Hall].
    + assert (all_in Space (w' ++ [nl] ++ k3)) as Hall.
      { rewrite HR. apply all_in_app; [done|]. by repeat constructor. }
      apply Forall_app in Hall as [_ Hall].
      apply Forall_app in Hall as [_ Hall].
      unfold log_or_try_follows in *. by rewrite skip_space_app.
  - repeat apply all_in_app; try done;
      first [by apply space_no_semicolon | by apply all_in_literal].
  - apply all_in_app; [done|]. by repeat constructor.
Qed.

Lemma decl_removed pre next :
  pre = [] ∨ last pre = Some nl →
  all_in (NoneOf (text_of ";")) x → log_or_try_follows next = true →
  LineDel true (pre ++ next)
    (re_sub pattern_unused_key (pre ++ (body ++ [nl]) ++ next)).
Proof.
  intros Hpre Hx' Hn.
  apply (scan_block_removed pattern_unused_key (body ++ [nl]) next)
    with (s := pre ++ (body ++ [nl]) ++ next).
  - auto with rules.
  - by destruct (key_decl_body w x w').
  - apply line_no_end_inside; [auto with rules | apply decl_body_no_nl].
  - by apply decl_matches.
  - apply re_sub_scan. auto with rules.
  - done.
  - destruct Hpre as [->|Hp]; [done|]. by rewrite (after_last _ _ _ Hp).
Qed.

Lemma decl_kept pre next :
  pre = [] ∨ last pre = Some nl →
  ¬ (all_in (NoneOf (text_of ";")) x ∧ log_or_try_follows next = true) →
  ∃ pre', re_sub pattern_unused_key (pre ++ (body ++ [nl]) ++ next)
          = pre' ++ (body ++ [nl]) ++ re_sub pattern_unused_key next
          ∧ LineDel true pre pre'.
Proof.
  intros Hpre Hnot. unfold re_sub.
  destruct (sub_go_prefix pattern_unused_key ((body ++ [nl]) ++ next)
              pattern_unused_key_line_rule pre true) as (pre' & Heq & Hd).
  { intros u1 u2 l s' _ M Heq.
    apply app_split in Heq as [(k & Hl & Hk)|(k & _ & Hl & _)]; [|by exists k].
    destruct (decide (k = [])) as [->|Hne].
    { exists []. by rewrite app_nil_r in *. }
    exfalso. apply Hnot. symmetry in Hk.
    by apply (decl_overlap_inv _ _ _ u2 k next M Hl Hne). }
  exists pre'. split; [|done]. rewrite Heq. f_equal.
  assert (after true pre = true) as ->.
  { destruct Hpre as [->|Hp]; [done|]. by rewrite (after_last _ _ _ Hp). }
  rewrite sub_go_no_match_prefix.
  - by rewrite (after_last true _ nl) by apply last_snoc.
  - intros p1 p2 Hp Hp2. destruct (decide (p1 = [])) as [->|Hp1].
    + simpl in Hp. subst p2.
      destruct (match_at pattern_unused_key (after true [])
                  ((body ++ [nl]) ++ next)) as [[b' s']|] eqn:E; [|done].
      exfalso. apply match_at_sound in E as (l & Hl & M & _).
      apply Hnot. symmetry in Hl.
      apply (decl_overlap_inv _ _ _ [] l next M eq_refl); [|done].
      intros ->. by apply (line_rule_consuming _ pattern_unused_key_line_rule) in M.
    + replace (after true p1) with false; [apply match_at_not_line_start|].
      destruct (last p1) as [c|] eqn:E; [|by apply last_None in E].
      rewrite (after_last _ _ _ E). symmetry. apply N.eqb_neq. intros ->.
      apply decl_body_no_nl.
      destruct p2 as [|d p2 _] using rev_ind; [done|].
      rewrite app_assoc in Hp. apply app_inj_tail in Hp as [-> _].
      apply elem_of_app. left. by apply last_Some_elem_of.
Qed.
End UnusedKey.

(** C3, counterexample: the line right after the declaration is empty, it
    does not begin with "log." or "try"; the rule removes the declaration
    all the same, together with the empty line. *)
Lemma key_before_blank_line_removed :
  lines key_before_blank_line
  = [text_of "const cacheKey = `lego:${id}`;" ++ [nl]; [nl];
     text_of "try {" ++ [nl]]
  ∧ log_or_try_follows [nl] = false
  ∧ re_sub pattern_unused_key key_before_blank_line = text_of "try {" ++ [nl]
  ∧ remove_cache_blocks key_before_blank_line = text_of "try {" ++ [nl].
Proof. by vm_compute. Qed.

(** C3, amended: for a declaration of the key on one line, anywhere in the
    text at the start of a line, between the texts [pre] and [next].  When
    its expression holds no ';' and [next], behind any white space (empty
    lines included), goes on with "log." or "try", the rule removes the
    declaration: the lines of the output are a subsequence of the lines of
    [pre] and [next].  In every other case the declaration stays unchanged
    at its place: the output is lines of [pre], the declaration, and what
    the rule makes of [next]. *)
Theorem unused_key_rule pre w x w' next :
  pre = [] ∨ last pre = Some nl →
  blank w → blank w' → x ≠ [] → nl ∉ x →
  (all_in (NoneOf (text_of ";")) x ∧ log_or_try_follows next = true →
   lines (re_sub pattern_unused_key
            (pre ++ (w ++ text_of "const cacheKey = " ++ x ++ text_of ";"
                       ++ w' ++ [nl]) ++ next))
   `sublist_of` lines (pre ++ next))
  ∧ (¬ (all_in (NoneOf (text_of ";")) x ∧ log_or_try_follows next = true) →
     ∃ pre',
       re_sub pattern_unused_key
         (pre ++ (w ++ text_of "const cacheKey = " ++ x ++ text_of ";"
                    ++ w' ++ [nl]) ++ next)
       = pre' ++ (w ++ text_of "const cacheKey = " ++ x ++ text_of ";"
                    ++ w' ++ [nl]) ++ re_sub pattern_unused_key next
       ∧ lines pre' `sublist_of` lines pre
       ∧ (pre' = [] ∨ last pre' = Some nl)).
Proof.
  intros Hpre Hw Hw' Hx Hxnl.
  replace (w ++ text_of "const cacheKey = " ++ x ++ text_of ";" ++ w' ++ [nl])
    with (key_decl_body w x w' ++ [nl])
    by (unfold key_decl_body; by rewrite <- !app_assoc).
  split.
  - intros [Hx' Hn]. by apply linedel_lines, decl_removed.
  - intros Hnot.
    destruct (decl_kept w x w' Hw Hw' Hxnl pre next Hpre Hnot)
      as (pre' & Heq & Hd).
    exists pre'. split; [done|]. split; [by apply linedel_lines|].
    by apply (linedel_aligned true pre).
Qed.

Lemma unused_key_rule_witness :
  (text_of "async function find(id) {" ++ [nl] = []
   ∨ last (text_of "async function find(id) {" ++ [nl]) = Some nl)
  ∧ blank (text_of "  ") ∧ blank [] ∧ text_of "`lego:${id}`" ≠ []
  ∧ (nl ∉ text_of "`lego:${id}`")
  ∧ lines (re_sub pattern_unused_key
             ((text_of "async function find(id) {" ++ [nl])
              ++ (text_of "  " ++ text_of "const cacheKey = "
                    ++ text_of "`lego:${id}`" ++ text_of ";" ++ [] ++ [nl])
              ++ (text_of "  log.debug(cacheKey);" ++ [nl])))
    `sublist_of` lines ((text_of "async function find(id) {" ++ [nl])
                        ++ (text_of "  log.debug(cacheKey);" ++ [nl]))
  ∧ ∃ pre',
      re_sub pattern_unused_key
        ((text_of "async function find(id) {" ++ [nl])
         ++ (text_of "  " ++ text_of "const cacheKey = "
               ++ text_of "`lego:${id}`" ++ text_of ";" ++ [] ++ [nl])
         ++ (text_of "  const url = base + id;" ++ [nl]))
      = pre' ++ (text_of "  " ++ text_of "const cacheKey = "
                   ++ text_of "`lego:${id}`" ++ text_of ";" ++ [] ++ [nl])
          ++ re_sub pattern_unused_key (text_of "  const url = base + id;" ++ [nl])
      ∧ lines pre' `sublist_of` lines (text_of "async function find(id) {" ++ [nl])
      ∧ (pre' = [] ∨ last pre' = Some nl).
Proof.
  assert (text_of "async function find(id) {" ++ [nl] = []
          ∨ last (text_of "async function find(id) {" ++ [nl]) = Some nl)
    as Hpre by (by right).
  assert (blank (text_of "  ")) as Hb by (by apply blank_check).
  assert (blank []) as Hb0 by constructor.
  assert (text_of "`lego:${id}`" ≠ []) as Hx by done.
  assert (nl ∉ text_of "`lego:${id}`") as Hn by (by apply literal_no_nl).
  repeat (split; [assumption|]).
  split.
  - apply (unused_key_rule (text_of "async function find(id) {" ++ [nl])
             (text_of "  ") (text_of "`lego:${id}`") []
             (text_of "  log.debug(cacheKey);" ++ [nl])); try assumption.
    split; [by apply all_in_literal | by vm_compute].
  - apply (unused_key_rule (text_of "async function find(id) {" ++ [nl])
             (text_of "  ") (text_of "`lego:${id}`") []
             (text_of "  const url = base + id;" ++ [nl])); try assumption.
    intros [_ H]. by vm_compute in H.
Defined.

Example unused_key_before_log :
  re_sub pattern_unused_key
    (text_of "  const cacheKey = `lego:${id}`;" ++ [nl]
     ++ text_of "  log.debug(cacheKey);" ++ [nl])
  = text_of "  log.debug(cacheKey);" ++ [nl].
Proof. by vm_compute. Qed.

Example unused_key_before_other_code :
  re_sub pattern_unused_key
    (text_of "  const cacheKey = `lego:${id}`;" ++ [nl]
     ++ text_of "  const url = base + id;" ++ [nl])
  = text_of "  const cacheKey = `lego:${id}`;" ++ [nl]
     ++ text_of "  const url = base + id;" ++ [nl].
Proof. by vm_compute. Qed.

(** A declaration whose expression holds a ';' stays, also in front of
    "try". *)
Example decl_with_semicolon_kept :
  log_or_try_follows (text_of "try {" ++ [nl]) = true
  ∧ remove_cache_blocks decl_with_semicolon = decl_with_semicolon.
Proof. by vm_compute. Qed.
